(** * dana-cockfight: the image-generation command line tool and the
      conference state machine

    Part I embeds [generate-image.ts]: argument parsing, the single call to
    the Gemini model, the extraction of the image parts and the writing of the
    files, with the process, the console, the file system and the model as an
    explicit world that is threaded through the program.

    Part II models the pairing engine and the per-pair conference state
    machine, whose code is not part of the sources at hand.

    Part III states and proves the properties of the tool, of the pairing
    engine, of the conference state machine and of the generation gateway;
    Part IV proves further properties of the tool. *)

From Stdlib Require Import ZArith List String Ascii Bool Lia Permutation.
From Stdlib Require Import DecimalString DecimalNat.
Import ListNotations.
Open Scope string_scope.

(* ================================================================= *)
(** ** JavaScript values used by the tool *)

Module JS.

(** Strings are UTF-8 byte strings. *)

Definition dq : string := String (ascii_of_nat 34) EmptyString.
Definition nl : string := String (ascii_of_nat 10) EmptyString.

(** [s.startsWith(p)] and [s.includes(sub)]. *)
Definition startsWith (s p : string) : bool := String.prefix p s.

Definition includes (s sub : string) : bool :=
  match String.index 0 sub s with
  | Some _ => true
  | None => false
  end.

(** A string is truthy when it is not empty; [undefined] is falsy. *)
Definition truthy (s : option string) : bool :=
  match s with
  | Some EmptyString | None => false
  | Some _ => true
  end.

(** [arr.includes(x)] on an array of strings, where [x] may be [undefined]. *)
Definition arrayIncludes (arr : list string) (x : option string) : bool :=
  match x with
  | Some s => existsb (String.eqb s) arr
  | None => false
  end.

(** Template-literal rendering of integral numbers. *)
Definition showZ (z : Z) : string := NilZero.string_of_int (Z.to_int z).
Definition showNat (n : nat) : string := NilZero.string_of_uint (Nat.to_uint n).

(** *** [parseInt] with no radix argument *)

Definition byte_is (c : ascii) (n : nat) : bool := Nat.eqb (nat_of_ascii c) n.

(** White space of one byte: TAB, LF, VT, FF, CR, SP. *)
Definition ws1 (c : ascii) : bool :=
  let n := nat_of_ascii c in
  (Nat.leb 9 n && Nat.leb n 13) || Nat.eqb n 32.

(** U+00A0, encoded on two bytes. *)
Definition ws2 (c0 c1 : ascii) : bool := byte_is c0 194 && byte_is c1 160.

(** U+1680, U+2000..U+200A, U+2028, U+2029, U+202F, U+205F, U+3000, U+FEFF,
    encoded on three bytes. *)
Definition ws3 (c0 c1 c2 : ascii) : bool :=
  let n2 := nat_of_ascii c2 in
  (byte_is c0 225 && byte_is c1 154 && byte_is c2 128)
  || (byte_is c0 226 && byte_is c1 128
      && ((Nat.leb 128 n2 && Nat.leb n2 138)
          || Nat.eqb n2 168 || Nat.eqb n2 169 || Nat.eqb n2 175))
  || (byte_is c0 226 && byte_is c1 129 && byte_is c2 159)
  || (byte_is c0 227 && byte_is c1 128 && byte_is c2 128)
  || (byte_is c0 239 && byte_is c1 187 && byte_is c2 191).

Fixpoint trimStart (s : string) : string :=
  match s with
  | EmptyString => s
  | String c0 s1 =>
      if ws1 c0 then trimStart s1 else
      match s1 with
      | EmptyString => s
      | String c1 s2 =>
          if ws2 c0 c1 then trimStart s2 else
          match s2 with
          | EmptyString => s
          | String c2 s3 => if ws3 c0 c1 c2 then trimStart s3 else s
          end
      end
  end.

(** Value of a digit character, for radices up to 36. *)
Definition digitValue (c : ascii) : option Z :=
  let n := nat_of_ascii c in
  if Nat.leb 48 n && Nat.leb n 57 then Some (Z.of_nat (n - 48))
  else if Nat.leb 97 n && Nat.leb n 122 then Some (Z.of_nat (n - 87))
  else if Nat.leb 65 n && Nat.leb n 90 then Some (Z.of_nat (n - 55))
  else None.

(** The longest prefix of radix-[R] digits, read as an integer; [None] when
    that prefix is empty. *)
Fixpoint parseDigits (R : Z) (s : string) (acc : option Z) : option Z :=
  match s with
  | EmptyString => acc
  | String c s' =>
      match digitValue c with
      | Some d =>
          if (d <? R)%Z
          then parseDigits R s' (Some (match acc with
                                       | Some a => a * R + d
                                       | None => d
                                       end)%Z)
          else acc
      | None => acc
      end
  end.

(** The numbers [parseInt] can return, NaN apart: the integral doubles and
    the two infinities. *)
Inductive Integral : Type :=
| Finite (z : Z)
| PosInfinity
| NegInfinity.

(** The double nearest to an integer, ties going to the even significand;
    integers of magnitude below 2^53 are doubles already, and what rounds to
    2^1024 or more is infinite. *)
Definition roundToDouble (m : Z) : Integral :=
  let a := Z.abs m in
  if (a <? 2 ^ 53)%Z then Finite m
  else
    let e := (Z.log2 a - 52)%Z in
    let q := Z.shiftr a e in
    let r := (a - Z.shiftl q e)%Z in
    let half := (2 ^ (e - 1))%Z in
    let q' := if (half <? r)%Z || ((r =? half)%Z && Z.odd q)
              then (q + 1)%Z else q in
    let v := (q' * 2 ^ e)%Z in
    if (2 ^ 1024 <=? v)%Z
    then (if (m <? 0)%Z then NegInfinity else PosInfinity)
    else Finite (Z.sgn m * v)%Z.

(** The integer that [parseInt(x)] reads, before it is made a Number;
    [None] when there is no digit to read.  The argument may be [undefined],
    which is first turned into the string "undefined". *)
Definition mathInt (x : option string) : option Z :=
  let input := match x with Some s => s | None => "undefined" end in
  let trimmed := trimStart input in
  let '(sign, unsigned) :=
    match trimmed with
    | String "-" r => ((-1)%Z, r)
    | String "+" r => (1%Z, r)
    | _ => (1%Z, trimmed)
    end in
  let '(R, digits) :=
    if startsWith unsigned "0x" || startsWith unsigned "0X"
    then (16%Z, String.substring 2 (String.length unsigned - 2) unsigned)
    else (10%Z, unsigned) in
  match parseDigits R digits None with
  | Some m => Some (sign * m)%Z
  | None => None
  end.

(** [parseInt(x)]: [None] is NaN; otherwise the integer read, as a Number
    (the engine of Node reads all the digits and rounds once). *)
Definition parseInt (x : option string) : option Integral :=
  match mathInt x with
  | Some m => Some (roundToDouble m)
  | None => None
  end.

(** [n || 1] for a number [n]: NaN and zero, of either sign, are falsy. *)
Definition orOne (n : option Integral) : Integral :=
  match n with
  | None => Finite 1
  | Some (Finite 0%Z) => Finite 1
  | Some x => x
  end.

(** [Math.min(4, Math.max(1, x))] for a number [x] that is not NaN: an
    integer between 1 and 4. *)
Definition clamp1to4 (x : Integral) : Z :=
  match x with
  | Finite z => Z.min 4 (Z.max 1 z)
  | PosInfinity => 4
  | NegInfinity => 1
  end.

(** A thrown value: an instance of [Error] (with the name of its constructor
    and its message), or any other value, with its [String(...)] rendering. *)
Inductive Thrown : Type :=
| JsError (ctor : string) (message : string)
| JsValue (repr : string).

Definition instanceofError (e : Thrown) : bool :=
  match e with JsError _ _ => true | JsValue _ => false end.

End JS.

(* ================================================================= *)
(** ** The part of the @google/genai interface the tool uses *)

Module GenAI.

Record Blob : Type := mkBlob {
  mimeType : option string;
  data : option string               (* base64 text *)
}.

Record Part : Type := mkPart {
  text : option string;
  inlineData : option Blob
}.

Record Content : Type := mkContent { parts : option (list Part) }.
Record Candidate : Type := mkCandidate { content : option Content }.
Record Response : Type := mkResponse { candidates : option (list Candidate) }.

(** [contents] of a request: a plain string, or a list of parts. *)
Inductive ContentListUnion : Type :=
| CString (s : string)
| CParts (ps : list Part).

Record ImageConfig : Type := mkImageConfig { cfgAspectRatio : string }.

Record Config : Type := mkConfig {
  responseModalities : list string;
  imageConfig : ImageConfig
}.

Record Request : Type := mkRequest {
  model : string;
  contents : ContentListUnion;
  config : Config
}.

(** The inline blobs a request carries along with its text. *)
Definition requestBlobs (r : Request) : list Blob :=
  match contents r with
  | CString _ => []
  | CParts ps =>
      flat_map (fun p => match inlineData p with
                         | Some b => [b]
                         | None => []
                         end) ps
  end.

(** What one call of [ai.models.generateContent] comes back with. *)
Inductive ApiOutcome : Type :=
| Resolve (r : Response)
| Reject (e : JS.Thrown).

End GenAI.

(* ================================================================= *)
(** ** Part I: generate-image.ts *)

Module Tool.
Import JS GenAI.

(** *** The world the program runs in *)

Inductive Stream : Type := Stdout | Stderr.

(** Functions of Node's [path] and [Buffer] that the tool calls.
    [path_resolve] and [path_relative] take the working directory first. *)
Record Node : Type := mkNode {
  path_join : string -> string -> string;
  path_resolve : string -> string -> string;
  path_relative : string -> string -> string;
  base64_decode : string -> list ascii
}.

Record World : Type := mkWorld {
  argv : list string;                       (* process.argv *)
  cwd : string;                             (* process.cwd() *)
  env_GEMINI_API_KEY : option string;       (* process.env.GEMINI_API_KEY *)
  clock : Z;                                (* Date.now() *)
  gemini : nat -> Request -> ApiOutcome;    (* the model, at its n-th call *)
  sent : list Request;                      (* calls made so far, in order *)
  existing : list string;                   (* paths that exist *)
  written : list (string * list ascii);     (* files written, in order *)
  console : list (Stream * string);         (* lines printed, in order *)
  (* what fs.mkdirSync(path, { recursive: true }) and
     fs.writeFileSync(path, ...) throw, if they do, given what exists *)
  fsMkdir : list string -> string -> option Thrown;
  fsWrite : list string -> string -> option Thrown
}.

Definition withSent (w : World) (l : list Request) : World :=
  mkWorld (argv w) (cwd w) (env_GEMINI_API_KEY w) (clock w) (gemini w)
          l (existing w) (written w) (console w) (fsMkdir w) (fsWrite w).

Definition withExisting (w : World) (l : list string) : World :=
  mkWorld (argv w) (cwd w) (env_GEMINI_API_KEY w) (clock w) (gemini w)
          (sent w) l (written w) (console w) (fsMkdir w) (fsWrite w).

Definition withWritten (w : World) (l : list (string * list ascii)) : World :=
  mkWorld (argv w) (cwd w) (env_GEMINI_API_KEY w) (clock w) (gemini w)
          (sent w) (existing w) l (console w) (fsMkdir w) (fsWrite w).

Definition withConsole (w : World) (l : list (Stream * string)) : World :=
  mkWorld (argv w) (cwd w) (env_GEMINI_API_KEY w) (clock w) (gemini w)
          (sent w) (existing w) (written w) l (fsMkdir w) (fsWrite w).

(** *** Computations: a result, a thrown value, or the end of the process *)

Inductive Outcome (A : Type) : Type :=
| Return (a : A)
| Throw (e : Thrown)
| Exit (code : Z).
Arguments Return {A} a.
Arguments Throw {A} e.
Arguments Exit {A} code.

Definition M (A : Type) : Type := World -> Outcome A * World.

Definition ret {A} (a : A) : M A := fun w => (Return a, w).

Definition bind {A B} (m : M A) (k : A -> M B) : M B :=
  fun w =>
    match m w with
    | (Return a, w') => k a w'
    | (Throw e, w') => (Throw e, w')
    | (Exit c, w') => (Exit c, w')
    end.

Notation "x <- m ;; k" := (bind m (fun x => k))
  (at level 61, m at next level, right associativity).
Notation "m ;;; k" := (bind m (fun _ => k))
  (at level 61, right associativity).

Definition throw {A} (e : Thrown) : M A := fun w => (Throw e, w).

(** [process.exit(code)] does not return. *)
Definition process_exit {A} (code : Z) : M A := fun w => (Exit code, w).

(** [try { m } catch (error) { h error }]: leaving the process is not caught. *)
Definition tryCatch {A} (m : M A) (h : Thrown -> M A) : M A :=
  fun w =>
    match m w with
    | (Throw e, w') => h e w'
    | r => r
    end.

Definition when (b : bool) (m : M unit) : M unit := if b then m else ret tt.

Definition console_log (s : string) : M unit :=
  fun w => (Return tt, withConsole w (console w ++ [(Stdout, s)])).

Definition console_error (s : string) : M unit :=
  fun w => (Return tt, withConsole w (console w ++ [(Stderr, s)])).

Definition process_argv : M (list string) := fun w => (Return (argv w), w).
Definition process_cwd : M string := fun w => (Return (cwd w), w).
Definition getenv_GEMINI_API_KEY : M (option string) :=
  fun w => (Return (env_GEMINI_API_KEY w), w).
Definition Date_now : M Z := fun w => (Return (clock w), w).

(** [await ai.models.generateContent(req)]: the call is made, and either
    resolves with a response or rejects, which throws at the [await]. *)
Definition generateContent (req : Request) : M Response :=
  fun w =>
    let w' := withSent w (sent w ++ [req]) in
    match gemini w (List.length (sent w)) req with
    | Resolve r => (Return r, w')
    | Reject e => (Throw e, w')
    end.

Definition existsSync (p : string) : M bool :=
  fun w => (Return (existsb (String.eqb p) (existing w)), w).

(** [fs.mkdirSync(p, { recursive: true })] makes the directory, or
    throws. *)
Definition mkdirSync (p : string) : M unit :=
  fun w =>
    match fsMkdir w (existing w) p with
    | Some e => (Throw e, w)
    | None => (Return tt, withExisting w (existing w ++ [p]))
    end.

(** [fs.writeFileSync(p, buffer)] writes the file, or throws. *)
Definition writeFileSync (p : string) (buffer : list ascii) : M unit :=
  fun w =>
    match fsWrite w (existing w) p with
    | Some e => (Throw e, w)
    | None => (Return tt,
               withWritten (withExisting w (existing w ++ [p]))
                           (written w ++ [(p, buffer)]))
    end.

Fixpoint forEach {A} (l : list A) (f : A -> M unit) : M unit :=
  match l with
  | [] => ret tt
  | x :: l' => f x ;;; forEach l' f
  end.

(** *** Options and argument parsing *)

Definition VALID_ASPECT_RATIOS : list string :=
  ["1:1"; "16:9"; "9:16"; "3:2"; "2:3";
   "4:3"; "3:4"; "4:5"; "5:4"; "21:9"].

(** [outputDir] and [name] are strings at first, and are assigned from
    [args[++i]], which is [undefined] past the end of the arguments:
    [None]. *)
Record Options : Type := mkOptions {
  prompt : string;
  count : Z;
  aspectRatio : string;
  outputDir : option string;
  name : option string
}.

Definition setPrompt (o : Options) (p : string) : Options :=
  mkOptions p (count o) (aspectRatio o) (outputDir o) (name o).
Definition setCount (o : Options) (c : Z) : Options :=
  mkOptions (prompt o) c (aspectRatio o) (outputDir o) (name o).
Definition setAspectRatio (o : Options) (r : string) : Options :=
  mkOptions (prompt o) (count o) r (outputDir o) (name o).
Definition setOutputDir (o : Options) (d : option string) : Options :=
  mkOptions (prompt o) (count o) (aspectRatio o) d (name o).
Definition setName (o : Options) (n : option string) : Options :=
  mkOptions (prompt o) (count o) (aspectRatio o) (outputDir o) n.

(** [Math.min(4, Math.max(1, parseInt(v) || 1))]. *)
Definition clampCount (v : option string) : Z :=
  clamp1to4 (orOne (parseInt v)).

(** The body of the loop at argument [arg], where [next] is [args[i + 1]];
    the boolean tells whether the body has stepped over it ([++i]). *)
Definition parseStep (arg : string) (next : option string) (o : Options)
  : Options * bool :=
  if arg =? "--count" then
    (setCount o (clampCount next), true)
  else if arg =? "--ratio" then
    (if arrayIncludes VALID_ASPECT_RATIOS next
     then match next with
          | Some ratio => setAspectRatio o ratio
          | None => o
          end
     else o, true)
  else if arg =? "--output" then
    (setOutputDir o next, true)
  else if arg =? "--name" then
    (setName o next, true)
  else if negb (startsWith arg "--") then
    (setPrompt o arg, false)
  else
    (o, false).

(** The loop over the arguments from the current one on. *)
Fixpoint parseLoop (args : list string) (o : Options) : Options :=
  match args with
  | [] => o
  | arg :: rest =>
      let '(o', stepped) := parseStep arg (hd_error rest) o in
      if stepped
      then match rest with
           | [] => o'
           | _ :: rest' => parseLoop rest' o'
           end
      else parseLoop rest o'
  end.

Section WithNode.
Context (node : Node).

Definition defaultOptions (workdir : string) : Options :=
  mkOptions "" 1 "16:9" (Some (path_join node workdir "generated-images"))
            (Some "").

Definition parseArgs : M Options :=
  all <- process_argv ;;
  let args := skipn 2 all in
  when (Nat.eqb (List.length args) 0)
       (console_error
          ("Usage: npx tsx generate-image.ts " ++ dq ++ "your prompt" ++ dq
           ++ " [options]") ;;;
        process_exit 1) ;;;
  workdir <- process_cwd ;;
  let options := parseLoop args (defaultOptions workdir) in
  when (negb (truthy (Some (prompt options))))
       (console_error "Error: Prompt is required" ;;;
        process_exit 1) ;;;
  ret options.

(** *** Image generation *)

(** [result.candidates?.[0]?.content?.parts || []]. *)
Definition responseParts (result : Response) : list Part :=
  match candidates result with
  | Some (c :: _) =>
      match content c with
      | Some ct =>
          match parts ct with
          | Some ps => ps
          | None => []
          end
      | None => []
      end
  | _ => []
  end.

(** [part.inlineData?.mimeType?.startsWith("image/")]. *)
Definition isImagePart (part : Part) : bool :=
  match inlineData part with
  | Some b =>
      match mimeType b with
      | Some mt => startsWith mt "image/"
      | None => false
      end
  | None => false
  end.

Definition hasText (part : Part) : bool := truthy (text part).

Definition undefinedProperty {A} : M A :=
  throw (JsError "TypeError" "Cannot read properties of undefined").

Definition fileName (baseName : string) (total i : nat) (ext : string)
  : string :=
  if Nat.ltb 1 total
  then baseName ++ "-" ++ showNat (i + 1) ++ "." ++ ext
  else baseName ++ "." ++ ext.

Definition extOf (mt : string) : string :=
  if includes mt "png" then "png" else "jpg".

Definition baseNameOf (options : Options) (timestamp : Z) : string :=
  if truthy (name options)
  then match name options with Some n => n | None => "" end
  else "beach-party-" ++ showZ timestamp.

(** [Buffer.from(undefined, "base64")] throws. *)
Definition bufferTypeError : Thrown :=
  JsError "TypeError"
    "The first argument must be of type string or an instance of Buffer, ArrayBuffer, or Array or an Array-like Object. Received undefined".

(** [Buffer.from(imageData, "base64")], where the data may be [undefined]. *)
Definition Buffer_from_base64 (imageData : option string) : M (list ascii) :=
  match imageData with
  | Some text => ret (base64_decode node text)
  | None => throw bufferTypeError
  end.

(** The loop that saves the image parts, from index [i] on; [total] is
    [imageParts.length] and [rest] the parts from index [i]. *)
Fixpoint saveLoop (options : Options) (dir : string) (timestamp : Z)
  (total i : nat) (rest : list Part) (savedPaths : list string)
  : M (list string) :=
  match rest with
  | [] => ret savedPaths
  | part :: rest' =>
      match inlineData part with
      | None => undefinedProperty
      | Some blob =>
          let imageData := data blob in
          match mimeType blob with
          | None => undefinedProperty
          | Some mt =>
              let ext := extOf mt in
              let baseName := baseNameOf options timestamp in
              let filename := fileName baseName total i ext in
              let filepath := path_join node dir filename in
              buffer <- Buffer_from_base64 imageData ;;
              writeFileSync filepath buffer ;;;
              workdir <- process_cwd ;;
              console_log ("💾 Saved: " ++ path_relative node workdir filepath) ;;;
              saveLoop options dir timestamp total (S i) rest'
                       (savedPaths ++ [filepath])
          end
      end
  end.

Definition apiPromptOf (options : Options) : string :=
  if (1 <? count options)%Z
  then "Generate " ++ showZ (count options) ++ " different variations of: "
       ++ prompt options
  else prompt options.

Definition requestOf (options : Options) : Request :=
  mkRequest "gemini-3-pro-image-preview"
            (CString (apiPromptOf options))
            (mkConfig ["Text"; "Image"] (mkImageConfig (aspectRatio options))).

Definition missingKeyError : Thrown :=
  JsError "Error" "GEMINI_API_KEY not found in .env file".

Definition noImagesError : Thrown :=
  JsError "Error"
    "No images were generated. The model may have refused or encountered an issue.".

(** [path.resolve(undefined)] throws. *)
Definition invalidPathError : Thrown :=
  JsError "TypeError"
    ("The " ++ dq ++ "paths[0]" ++ dq
     ++ " argument must be of type string. Received undefined").

Definition generateImages (options : Options) : M (list string) :=
  apiKey <- getenv_GEMINI_API_KEY ;;
  if negb (truthy apiKey) then throw missingKeyError else
  console_log (nl ++ "🍌 Nano Banana Image Generation") ;;;
  console_log ("📝 Prompt: " ++ dq ++ prompt options ++ dq) ;;;
  console_log ("🖼️  Aspect Ratio: " ++ aspectRatio options) ;;;
  console_log ("#️⃣  Count: " ++ showZ (count options) ++ nl) ;;;
  result <- generateContent (requestOf options) ;;
  match outputDir options with
  | None => throw invalidPathError
  | Some d =>
      workdir <- process_cwd ;;
      let dir := path_resolve node workdir d in
      present <- existsSync dir ;;
      when (negb present)
           (mkdirSync dir ;;; console_log ("📁 Created: " ++ dir)) ;;;
      timestamp <- Date_now ;;
      let parts := responseParts result in
      let imageParts := filter isImagePart parts in
      if Nat.eqb (List.length imageParts) 0
      then
        let textParts := filter hasText parts in
        when (Nat.ltb 0 (List.length textParts))
             (console_log (nl ++ "📝 Model response:") ;;;
              forEach textParts
                (fun part => console_log
                               (match text part with
                                | Some t => t
                                | None => ""
                                end))) ;;;
        throw noImagesError
      else
        console_log ("✅ Generated " ++ showNat (List.length imageParts)
                     ++ " image(s)" ++ nl) ;;;
        saveLoop options dir timestamp (List.length imageParts) 0
                 imageParts []
  end.

(** *** The program *)

Definition errorText (error : Thrown) : string :=
  match error with
  | JsError _ message => message
  | JsValue repr => repr
  end.

Definition mentionsKey (error : Thrown) : bool :=
  match error with
  | JsError _ message => includes message "GEMINI_API_KEY"
  | JsValue _ => false
  end.

Definition main : M unit :=
  tryCatch
    (options <- parseArgs ;;
     savedPaths <- generateImages options ;;
     console_log (nl ++ "✨ Success! Generated "
                  ++ showNat (List.length savedPaths) ++ " image(s)"))
    (fun error =>
       console_error (nl ++ "❌ Error: " ++ errorText error) ;;;
       when (mentionsKey error)
            (console_error
               (nl ++ "💡 Create .env file with: GEMINI_API_KEY=your_key_here") ;;;
             console_error "   Get key at: https://aistudio.google.com/apikey") ;;;
       process_exit 1).

End WithNode.

End Tool.

(* ================================================================= *)
(** ** Part II: pairing engine and conference state machine *)

Module Conference.

(** The code of the registry, of the pairing engine, of the gateway as the
    conference uses it and of the conference state machine is not among the
    sources: the definitions of this part follow the specification
    (sections 3, 4, 7 and 8). *)

Inductive Result (A E : Type) : Type :=
| Ok (a : A)
| Err (e : E).
Arguments Ok {A E} a.
Arguments Err {A E} e.

Definition Asset : Type := string.

(** Modelled from the spec: the Fighter of the data model (section 3), whose
    declaration is not among the sources: a stable code, a display name, a
    description and the handles of the two reference images. *)
Record Fighter : Type := mkFighter {
  code : string;
  displayName : string;
  description : string;
  ownerImage : Asset;
  roosterImage : Asset
}.

Definition Pair : Type := (Fighter * Fighter)%type.
Definition Pairing : Type := list Pair.

(** *** PairingEngine *)

(** Modelled from the spec: the random source supplied to the draw, which the
    spec leaves abstract: here, its k-th raw draw. *)
Definition Rng : Type := nat -> nat.

Fixpoint removeAt {A} (j : nat) (l : list A) : list A :=
  match l, j with
  | [], _ => []
  | _ :: l', 0 => l'
  | x :: l', S j' => x :: removeAt j' l'
  end.

(** Modelled from the spec: the shuffle of PairingEngine.draw, whose code is
    not among the sources.  The spec asks for a Fisher-Yates-equivalent
    permutation driven by the supplied random source: at each step one of the
    remaining elements is drawn, at the index the source gives (reduced
    modulo the number of remaining elements), and moved to the output. *)
Fixpoint shuffleFrom {A} (n : nat) (remaining : list A) (rng : Rng) (k : nat)
  : list A :=
  match n with
  | 0 => []
  | S n' =>
      let j := Nat.modulo (rng k) (List.length remaining) in
      match nth_error remaining j with
      | Some x => x :: shuffleFrom n' (removeAt j remaining) rng (S k)
      | None => []
      end
  end.

Definition shuffle {A} (l : list A) (rng : Rng) : list A :=
  shuffleFrom (List.length l) l rng 0.

(** Modelled from the spec: the partition of section 4.2 into consecutive
    pairs, indices 0-1, 2-3, 4-5. *)
Fixpoint consecutivePairs {A} (l : list A) : list (A * A) :=
  match l with
  | a :: b :: rest => (a, b) :: consecutivePairs rest
  | _ => []
  end.

Inductive DrawError : Type := InsufficientFightersError.

(** Modelled from the spec: PairingEngine.draw (section 4.2), whose code is
    not among the sources: it fails unless there are exactly 6 fighters,
    shuffles them and cuts the result into consecutive pairs. *)
Definition draw (fighters : list Fighter) (rng : Rng)
  : Result Pairing DrawError :=
  if Nat.eqb (List.length fighters) 6
  then Ok (consecutivePairs (shuffle fighters rng))
  else Err InsufficientFightersError.

Definition members (p : Pairing) : list Fighter :=
  flat_map (fun ab => [fst ab; snd ab]) p.

(** *** GenerationGateway, as the state machine sees it *)

(** Modelled from the spec: GenerationError and its three tags (sections
    4.3 and 7). *)
Inductive GenerationErrorTag : Type := Transient | Refused | Unknown.

Record GenerationError : Type := mkGenerationError {
  tag : GenerationErrorTag
}.

Record PromptContext : Type := mkPromptContext {
  ctxSpeaker : Fighter;
  ctxOpponent : Fighter;
  ctxRound : nat
}.

(** Modelled from the spec: the two operations of GenerationGateway
    (section 4.3), as an interface, over a gateway state of its own (pending
    retries, quotas, the remote models): each call answers and moves that
    state on. *)
Record Gateway (G : Type) : Type := mkGateway {
  generateText :
    PromptContext -> G -> Result string GenerationError * G;
  generateImage :
    PromptContext -> list Asset -> G -> Result string GenerationError * G
}.
Arguments generateText {G} _ _ _.
Arguments generateImage {G} _ _ _ _.

(** *** ConferenceState *)

(** Modelled from the spec: Slot, Artifact, ConferenceState and Session of
    the data model (section 3). *)
Inductive SlotStatus : Type := Pending | Generated | Failed.

Record Artifact : Type := mkArtifact {
  text : string;
  image : option string;
  usedFallback : bool
}.

Record Slot : Type := mkSlot {
  round : nat;
  speaker : Fighter;
  status : SlotStatus;
  artifact : option Artifact
}.

Definition ConferenceState : Type := list Slot.

Inductive PairId : Type := Pair0 | Pair1 | Pair2.

Definition pairIndex (p : PairId) : nat :=
  match p with Pair0 => 0 | Pair1 => 1 | Pair2 => 2 end.

Record Session : Type := mkSession {
  registry : list Fighter;
  pairing : option Pairing;
  conferences : list ConferenceState     (* one per pair, in pairing order *)
}.

(** Modelled from the spec: the round-robin of section 4.4, step 3: slot i
    belongs to round i / 2, and is spoken by fighter A when i is even, by
    fighter B when it is odd. *)
Definition roundAt (i : nat) : nat := Nat.div i 2.
Definition speakerAt (pr : Pair) (i : nat) : Fighter :=
  if Nat.even i then fst pr else snd pr.
Definition opponentAt (pr : Pair) (i : nat) : Fighter :=
  if Nat.even i then snd pr else fst pr.

Definition initConference (pr : Pair) : ConferenceState :=
  map (fun i => mkSlot (roundAt i) (speakerAt pr i) Pending None) (seq 0 6).

Definition isGenerated (s : Slot) : bool :=
  match status s with Generated => true | _ => false end.

(** Modelled from the spec: the next slot in strict order (section 4.4,
    step 3), the first one that is not resolved yet. *)
Fixpoint nextIndexFrom (i : nat) (c : ConferenceState) : option nat :=
  match c with
  | [] => None
  | s :: c' => if isGenerated s then nextIndexFrom (S i) c' else Some i
  end.

Definition nextIndex (c : ConferenceState) : option nat := nextIndexFrom 0 c.

Definition isComplete (c : ConferenceState) : bool :=
  match nextIndex c with None => true | Some _ => false end.

(** Modelled from the spec: the states of a pair's conference (section
    4.4). *)
Inductive ConferenceStatus : Type := NotStarted | InProgress | Complete.

Definition conferenceStatus (c : ConferenceState) : ConferenceStatus :=
  match nextIndex c with
  | None => Complete
  | Some 0 =>
      match c with
      | s :: _ => match status s with Pending => NotStarted | _ => InProgress end
      | [] => NotStarted
      end
  | Some _ => InProgress
  end.

Fixpoint updateAt {A} (i : nat) (x : A) (l : list A) : list A :=
  match l, i with
  | [], _ => []
  | _ :: l', 0 => x :: l'
  | y :: l', S i' => y :: updateAt i' x l'
  end.

(** Modelled from the spec: the reference assets of both fighters of the
    pair (section 4.4, step 4). *)
Definition referenceAssets (pr : Pair) : list Asset :=
  [ownerImage (fst pr); roosterImage (fst pr);
   ownerImage (snd pr); roosterImage (snd pr)].

(** Modelled from the spec: the ways advance fails (sections 4.4 and 7); a
    failed text generation surfaces the gateway's error. *)
Inductive AdvanceError : Type :=
| PairingNotDrawnError
| ConferenceCompleteError
| TextGenerationFailed (e : GenerationError).

Definition withConference (s : Session) (p : PairId) (c : ConferenceState)
  : Session :=
  mkSession (registry s) (pairing s) (updateAt (pairIndex p) c (conferences s)).

(** Modelled from the spec: ConferenceStateMachine.advance (section 4.4),
    whose code is not among the sources.  Steps 1 to 7 of the spec, in
    order.  A slot whose text generation failed is recorded as Failed and is
    the one the next call attempts again (sections 8 and 9): the next slot is
    the first one that is not Generated, and the conference is complete when
    all six are. *)
Definition advance {G} (gw : Gateway G) (p : PairId) (st : Session * G)
  : Result Slot AdvanceError * (Session * G) :=
  let '(s, g) := st in
  match pairing s with
  | None => (Err PairingNotDrawnError, st)
  | Some prs =>
      match nth_error prs (pairIndex p), nth_error (conferences s) (pairIndex p) with
      | Some pr, Some conf =>
          match nextIndex conf with
          | None => (Err ConferenceCompleteError, st)
          | Some i =>
              let ctx := mkPromptContext (speakerAt pr i) (opponentAt pr i)
                                         (roundAt i) in
              match generateText gw ctx g with
              | (Err e, g1) =>
                  let slot := mkSlot (roundAt i) (speakerAt pr i) Failed None in
                  (Err (TextGenerationFailed e),
                   (withConference s p (updateAt i slot conf), g1))
              | (Ok t, g1) =>
                  let '(img, g2) :=
                    generateImage gw ctx (referenceAssets pr) g1 in
                  let art :=
                    match img with
                    | Ok bytes => mkArtifact t (Some bytes) false
                    | Err _ => mkArtifact t None true
                    end in
                  let slot :=
                    mkSlot (roundAt i) (speakerAt pr i) Generated (Some art) in
                  (Ok slot, (withConference s p (updateAt i slot conf), g2))
              end
          end
      | _, _ => (Err PairingNotDrawnError, st)
      end
  end.

(** Modelled from the spec: the draw of a session (sections 3 and 4.2): a
    new pairing replaces the previous one and every conference starts
    afresh. *)
Definition drawPairing (rng : Rng) (s : Session)
  : Result Session DrawError :=
  match draw (registry s) rng with
  | Ok prs => Ok (mkSession (registry s) (Some prs) (map initConference prs))
  | Err e => Err e
  end.

(** [n] calls of advance in a row, with their results in order. *)
Fixpoint advanceTimes {G} (gw : Gateway G) (p : PairId) (n : nat)
  (st : Session * G) : list (Result Slot AdvanceError) * (Session * G) :=
  match n with
  | 0 => ([], st)
  | S n' =>
      let '(r, st1) := advance gw p st in
      let '(rs, st2) := advanceTimes gw p n' st1 in
      (r :: rs, st2)
  end.

(** *** GenerationGateway over the two capabilities *)

(** Modelled from the spec: the text and image capabilities of section 6,
    whose clients are not among the sources:
    generate(promptText) and generate(promptText, referenceImages[]), each
    over the state of the remote service. *)
Record Capabilities (St : Type) : Type := mkCapabilities {
  textCapability :
    string -> St -> Result string GenerationError * St;
  imageCapability :
    string -> list Asset -> St -> Result string GenerationError * St
}.
Arguments textCapability {St} _ _ _.
Arguments imageCapability {St} _ _ _ _.

(** One call received by the image capability. *)
Record ImageCall : Type := mkImageCall {
  callPrompt : string;
  callReferences : list Asset
}.

(** Modelled from the spec: the contract of section 4.3 for generateImage,
    whose code is not among the sources: the capability is attempted up to
    [attempts] times; a transient failure is attempted again while attempts
    remain, any other failure is returned at once, and when the attempts are
    used up the last error is returned.  The calls the capability receives
    are recorded beside its state. *)
Fixpoint attemptImage {St} (cap : Capabilities St) (attempts : nat)
  (promptText : string) (refs : list Asset) (lastError : GenerationError)
  (st : St * list ImageCall)
  : Result string GenerationError * (St * list ImageCall) :=
  match attempts with
  | 0 => (Err lastError, st)
  | S attempts' =>
      let '(s, calls) := st in
      let '(r, s') := imageCapability cap promptText refs s in
      let st' := (s', app calls [mkImageCall promptText refs]) in
      match r with
      | Ok bytes => (Ok bytes, st')
      | Err e =>
          match tag e with
          | Transient => attemptImage cap attempts' promptText refs e st'
          | _ => (Err e, st')
          end
      end
  end.

(** Modelled from the spec: the same contract for generateText. *)
Fixpoint attemptText {St} (cap : Capabilities St) (attempts : nat)
  (promptText : string) (lastError : GenerationError)
  (st : St * list ImageCall)
  : Result string GenerationError * (St * list ImageCall) :=
  match attempts with
  | 0 => (Err lastError, st)
  | S attempts' =>
      let '(s, calls) := st in
      let '(r, s') := textCapability cap promptText s in
      match r with
      | Ok t => (Ok t, (s', calls))
      | Err e =>
          match tag e with
          | Transient => attemptText cap attempts' promptText e (s', calls)
          | _ => (Err e, (s', calls))
          end
      end
  end.

(** Modelled from the spec: the GenerationGateway of section 4.3 over the
    capabilities of section 6, for a retry bound and for the two renderings
    of a prompt context as text, which the spec leaves open. *)
Definition gatewayOf {St} (cap : Capabilities St) (attempts : nat)
  (textPrompt imagePrompt : PromptContext -> string)
  : Gateway (St * list ImageCall) :=
  mkGateway (St * list ImageCall)
    (fun ctx st =>
       attemptText cap attempts (textPrompt ctx)
                   (mkGenerationError Unknown) st)
    (fun ctx refs st =>
       attemptImage cap attempts (imagePrompt ctx) refs
                    (mkGenerationError Unknown) st).

(** *** Vocabulary of the statements about the conference, and samples *)

(** The pair and the conference state that a pair identity designates. *)
Definition conferenceAt (s : Session) (p : PairId)
  : option (Pair * ConferenceState) :=
  match pairing s with
  | Some prs =>
      match nth_error prs (pairIndex p),
            nth_error (conferences s) (pairIndex p) with
      | Some pr, Some c => Some (pr, c)
      | _, _ => None
      end
  | None => None
  end.

(** A conference of six slots of which exactly the first [k] are resolved. *)
Definition progress (k : nat) (c : ConferenceState) : bool :=
  Nat.eqb (List.length c) 6
  && forallb isGenerated (firstn k c)
  && forallb (fun s => negb (isGenerated s)) (skipn k c).

Definition isTextFailure (r : Result Slot AdvanceError) : bool :=
  match r with
  | Err (TextGenerationFailed _) => true
  | _ => false
  end.

(** Results of successive calls that resolve the slots from index [k] on,
    one per call and in order, and fail with ConferenceCompleteError once
    the six slots are resolved. *)
Fixpoint inOrder (pr : Pair) (k : nat) (rs : list (Result Slot AdvanceError))
  : Prop :=
  match rs with
  | [] => True
  | r :: rs' =>
      (if Nat.ltb k 6
       then exists a,
           r = Ok (mkSlot (roundAt k) (speakerAt pr k) Generated (Some a))
       else r = Err ConferenceCompleteError)
      /\ inOrder pr (S k) rs'
  end.

(** The slots that a run of calls has produced, in order. *)
Fixpoint producedSlots (rs : list (Result Slot AdvanceError)) : list Slot :=
  match rs with
  | [] => []
  | Ok slot :: rs' => slot :: producedSlots rs'
  | Err _ :: rs' => producedSlots rs'
  end.

(** Round, speaker and status of a slot. *)
Definition slotKey (slot : Slot) : nat * Fighter * SlotStatus :=
  (round slot, speaker slot, status slot).

(** The keys the slots of indices [k], [k+1], ..., [k+m-1] have once
    resolved. *)
Definition schedule (pr : Pair) (k m : nat) : list (nat * Fighter * SlotStatus) :=
  map (fun i => (roundAt i, speakerAt pr i, Generated)) (seq k m).

(** A gateway whose state counts the calls it has served, and whose first
    call fails on a timeout. *)
Definition slowStartGateway : Gateway nat :=
  mkGateway nat
    (fun ctx g =>
       match g with
       | 0 => (Err (mkGenerationError Transient), S g)
       | S _ => (Ok ("Round " ++ JS.showNat (ctxRound ctx) ++ ": "
                     ++ code (ctxSpeaker ctx)), S g)
       end)
    (fun ctx refs g => (Ok "PNG", S g)).

Definition fighter (c : string) : Fighter :=
  mkFighter c c "" (c ++ "/owner.jpg") (c ++ "/image.png").

Definition sampleRoster : list Fighter :=
  map fighter ["petro"; "oleg"; "vadym"; "andrew_3"; "roma"; "bohdan"].

Definition sampleRng : Rng := fun k => nth k [0; 4; 0; 2; 0; 0] 0.

(** A gateway whose state counts the calls it has served: text always
    comes, images are always refused. *)
Definition textOnlyGateway : Gateway nat :=
  mkGateway nat
    (fun ctx g => (Ok ("Round " ++ JS.showNat (ctxRound ctx) ++ ": "
                       ++ code (ctxSpeaker ctx)), S g))
    (fun ctx refs g => (Err (mkGenerationError Refused), S g)).

(** Capabilities whose state counts the calls served: the text comes, the
    image capability times out once and then answers. *)
Definition sampleCapabilities : Capabilities nat :=
  mkCapabilities nat
    (fun promptText s => (Ok ("Re: " ++ promptText), S s))
    (fun promptText refs s =>
       match s with
       | 1 => (Err (mkGenerationError Transient), S s)
       | _ => (Ok "PNG", S s)
       end).

Definition samplePrompt (ctx : PromptContext) : string :=
  code (ctxSpeaker ctx) ++ " to " ++ code (ctxOpponent ctx)
  ++ ", round " ++ JS.showNat (ctxRound ctx).

Definition freshSession : Session := mkSession sampleRoster None [].

Definition drawnSession : Session :=
  match drawPairing sampleRng freshSession with
  | Ok s => s
  | Err _ => freshSession
  end.

End Conference.

(* ================================================================= *)
(** ** Vocabulary of the statements, and sample inputs *)

Import JS GenAI Tool.

(** The flags after which the loop of [parseArgs] steps over one more
    argument. *)
Definition takesValue (arg : string) : bool :=
  (arg =? "--count") || (arg =? "--ratio") || (arg =? "--output")
  || (arg =? "--name").

(** A run of arguments that the loop consumes exactly: each flag that takes a
    value is followed by it inside the run. *)
Inductive aligned : list string -> Prop :=
| aligned_nil : aligned []
| aligned_value arg v l :
    takesValue arg = true -> aligned l -> aligned (arg :: v :: l)
| aligned_plain arg l :
    takesValue arg = false -> aligned l -> aligned (arg :: l).

(** A thrown value that is an instance of a class named GenerationError. *)
Definition isGenerationError (e : Thrown) : Prop :=
  exists message, e = JsError "GenerationError" message.

(** The image parts of a response, as [generateImages] selects them. *)
Definition imagePartsOf (result : Response) : list Part :=
  filter isImagePart (responseParts result).

Definition mimeOf (part : Part) : string :=
  match inlineData part with
  | Some b => match mimeType b with Some mt => mt | None => "" end
  | None => ""
  end.

Definition dataOf (part : Part) : string :=
  match inlineData part with
  | Some b => match data b with Some text => text | None => "" end
  | None => ""
  end.

Definition hasData (part : Part) : bool :=
  match inlineData part with
  | Some b => match data b with Some _ => true | None => false end
  | None => false
  end.

(** The file name the saving loop gives to the image part of index [i]. *)
Definition nameOf (options : Options) (timestamp : Z) (total i : nat)
  (part : Part) : string :=
  fileName (baseNameOf options timestamp) total i (extOf (mimeOf part)).

Fixpoint namesFrom (options : Options) (timestamp : Z) (total i : nat)
  (rest : list Part) : list string :=
  match rest with
  | [] => []
  | part :: rest' =>
      nameOf options timestamp total i part
      :: namesFrom options timestamp total (S i) rest'
  end.

(** The path the saving loop gives to the image part of index [i]. *)
Definition pathOf (node : Node) (options : Options) (dir : string)
  (timestamp : Z) (total i : nat) (part : Part) : string :=
  path_join node dir
    (fileName (baseNameOf options timestamp) total i (extOf (mimeOf part))).

Fixpoint pathsFrom (node : Node) (options : Options) (dir : string)
  (timestamp : Z) (total i : nat) (rest : list Part) : list string :=
  match rest with
  | [] => []
  | part :: rest' =>
      pathOf node options dir timestamp total i part
      :: pathsFrom node options dir timestamp total (S i) rest'
  end.

Fixpoint filesFrom (node : Node) (options : Options) (dir : string)
  (timestamp : Z) (total i : nat) (rest : list Part)
  : list (string * list ascii) :=
  match rest with
  | [] => []
  | part :: rest' =>
      (pathOf node options dir timestamp total i part,
       base64_decode node (dataOf part))
      :: filesFrom node options dir timestamp total (S i) rest'
  end.

(** Decimal digits, and strings made of them. *)
Definition isDigit (c : ascii) : bool :=
  let n := nat_of_ascii c in Nat.leb 48 n && Nat.leb n 57.

Fixpoint digitsOnly (s : string) : bool :=
  match s with
  | EmptyString => true
  | String c s' => isDigit c && digitsOnly s'
  end.

(** The same world, started with other arguments. *)
Definition withArgs (w : World) (args : list string) : World :=
  mkWorld ("node" :: "generate-image.ts" :: args) (cwd w)
          (env_GEMINI_API_KEY w) (clock w) (gemini w) (sent w) (existing w)
          (written w) (console w) (fsMkdir w) (fsWrite w).

(** The same world, over a file system that fails as told. *)
Definition withFs (w : World)
  (mk wr : list string -> string -> option Thrown) : World :=
  mkWorld (argv w) (cwd w) (env_GEMINI_API_KEY w) (clock w) (gemini w)
          (sent w) (existing w) (written w) (console w) mk wr.

(** A stand-in for Node's library on POSIX paths without dots, enough to run
    the program on examples. *)
Definition sampleNode : Node :=
  mkNode (fun a b => a ++ "/" ++ b)
         (fun workdir p => if startsWith p "/" then p else workdir ++ "/" ++ p)
         (fun workdir p => p)
         list_ascii_of_string.

Definition pngBlob : Blob := mkBlob (Some "image/png") (Some "iVBORw0KGgo=").
Definition jpegBlob : Blob := mkBlob (Some "image/jpeg") (Some "/9j/4AAQ").
Definition imagePart (b : Blob) : Part := mkPart None (Some b).
Definition textPart (t : string) : Part := mkPart (Some t) None.

Definition responseOf (ps : list Part) : Response :=
  mkResponse (Some [mkCandidate (Some (mkContent (Some ps)))]).

(** A world with the given arguments, key and model, over an empty file
    system that does not fail. *)
Definition worldOf (args : list string) (key : option string)
  (api : nat -> Request -> ApiOutcome) : World :=
  mkWorld ("node" :: "generate-image.ts" :: args) "/work" key 1700000000000
          api [] [] [] [] (fun _ _ => None) (fun _ _ => None).

(** A model that answers every call with one PNG image. *)
Definition onePng : nat -> Request -> ApiOutcome :=
  fun _ _ => Resolve (responseOf [imagePart pngBlob]).

Definition worldCountNine : World :=
  worldOf ["a cat"; "--count"; "9"] (Some "key") onePng.

Definition worldBadRatio : World :=
  worldOf ["a cat"; "--ratio"; "7:5"] (Some "key") onePng.

Definition sampleOptions : Options :=
  mkOptions "a cat" 1 "16:9" (Some "/work/generated-images") (Some "").

Definition fourOptions : Options :=
  mkOptions "a cat" 4 "16:9" (Some "/work/generated-images") (Some "").

(** Options with a name that lies in a subdirectory. *)
Definition heroOptions : Options :=
  mkOptions "a cat" 1 "16:9" (Some "/work/generated-images")
            (Some "sub/hero").

(** What the file system throws for a file in a directory that is missing,
    and for a directory below a regular file. *)
Definition enoentError : Thrown :=
  JsError "Error"
    "ENOENT: no such file or directory, open '/work/generated-images/sub/hero.png'".

Definition enotdirError : Thrown :=
  JsError "Error"
    "ENOTDIR: not a directory, mkdir '/work/generated-images'".

(** A model that is rate limited at its first call and answers with an
    image from the second call on. *)
Definition rateLimitError : Thrown :=
  JsError "ApiError" "429 RESOURCE_EXHAUSTED: rate limit exceeded".

Definition rateLimitedOnce : nat -> Request -> ApiOutcome :=
  fun n _ =>
    match n with
    | 0 => Reject rateLimitError
    | S _ => Resolve (responseOf [imagePart pngBlob])
    end.

(** A model that declines, in words. *)
Definition refusal : nat -> Request -> ApiOutcome :=
  fun _ _ => Resolve (responseOf [textPart "I cannot create that image."]).

(** A model that answers every call with two images. *)
Definition twoImages : nat -> Request -> ApiOutcome :=
  fun _ _ => Resolve (responseOf [imagePart pngBlob; imagePart jpegBlob]).

Definition worldRateLimited : World :=
  worldOf ["a cat"] (Some "key") rateLimitedOnce.
Definition worldRefused : World := worldOf ["a cat"] (Some "key") refusal.
Definition worldNoKey : World := worldOf ["a cat"] None onePng.
Definition worldOnePng : World := worldOf ["a cat"] (Some "key") onePng.
Definition worldTwoImages : World := worldOf ["a cat"] (Some "key") twoImages.

(** One image comes back, but the subdirectory of its name is missing. *)
Definition worldMissingSubdir : World :=
  withFs (worldOf ["a cat"; "--name"; "sub/hero"] (Some "key") onePng)
         (fun _ _ => None)
         (fun _ p =>
            if String.eqb p "/work/generated-images/sub/hero.png"
            then Some enoentError
            else None).

(** The model declines, and the output directory cannot be made. *)
Definition worldNoDirectory : World :=
  withFs worldRefused (fun _ _ => Some enotdirError) (fun _ _ => None).

(* ================================================================= *)
(** ** Part III: properties of generate-image.ts *)

Section ArgumentParsing.
Context (node : Node).

(** *** Numbers *)

Lemma roundToDouble_small (m : Z) :
  (Z.abs m < 2 ^ 53)%Z -> roundToDouble m = Finite m.
Proof.
  intros H. unfold roundToDouble.
  destruct (Z.ltb_spec (Z.abs m) (2 ^ 53)); [reflexivity | lia].
Qed.

Lemma significand_lower (a : Z) :
  (2 ^ 53 <= a)%Z ->
  (0 < Z.log2 a - 52)%Z /\ (2 ^ 52 <= Z.shiftr a (Z.log2 a - 52))%Z.
Proof.
  intros Ha.
  assert (Hpos : (0 < a)%Z) by (pose proof (Z.pow_pos_nonneg 2 53); lia).
  assert (Hlog : (53 <= Z.log2 a)%Z) by (apply Z.log2_le_pow2; assumption).
  split; [lia|].
  rewrite Z.shiftr_div_pow2 by lia.
  apply Z.div_le_lower_bound; [apply Z.pow_pos_nonneg; lia|].
  rewrite <- Z.pow_add_r by lia.
  replace (Z.log2 a - 52 + 52)%Z with (Z.log2 a) by lia.
  apply Z.log2_spec. exact Hpos.
Qed.

(** Beyond 2^53 in magnitude the nearest double keeps the sign and stays
    beyond 2^52 in magnitude. *)
Lemma roundToDouble_large (m : Z) :
  (2 ^ 53 <= Z.abs m)%Z ->
  match roundToDouble m with
  | Finite v => (0 < m /\ 2 ^ 52 <= v)%Z \/ (m < 0 /\ v <= - 2 ^ 52)%Z
  | PosInfinity => (0 < m)%Z
  | NegInfinity => (m < 0)%Z
  end.
Proof.
  intros H. unfold roundToDouble.
  destruct (Z.ltb_spec (Z.abs m) (2 ^ 53)) as [Hlt|_]; [lia|].
  destruct (significand_lower (Z.abs m) H) as [He Hq].
  set (e := (Z.log2 (Z.abs m) - 52)%Z) in *.
  set (q := Z.shiftr (Z.abs m) e) in *.
  match goal with
  | |- context [if ?c then (q + 1)%Z else q] =>
      set (q' := if c then (q + 1)%Z else q);
      assert (Hq' : (2 ^ 52 <= q')%Z) by (subst q'; destruct c; lia)
  end.
  assert (Hpow : (1 <= 2 ^ e)%Z)
    by (pose proof (Z.pow_pos_nonneg 2 e); lia).
  assert (Hv : (2 ^ 52 <= q' * 2 ^ e)%Z).
  { pose proof (Z.pow_pos_nonneg 2 52).
    replace (2 ^ 52)%Z with (2 ^ 52 * 1)%Z by lia.
    apply Z.mul_le_mono_nonneg; lia. }
  assert (Hm : (2 ^ 53 <= m \/ m <= - 2 ^ 53)%Z) by lia.
  pose proof (Z.pow_pos_nonneg 2 53).
  destruct (2 ^ 1024 <=? q' * 2 ^ e)%Z.
  - destruct (Z.ltb_spec m 0); lia.
  - destruct Hm as [Hm|Hm].
    + left. rewrite Z.sgn_pos by lia. lia.
    + right. rewrite Z.sgn_neg by lia. lia.
Qed.

(** Rounding does not change what the clamp gives. *)
Lemma clamp_roundToDouble (m : Z) :
  clamp1to4 (orOne (Some (roundToDouble m))) = Z.min 4 (Z.max 1 m).
Proof.
  destruct (Z.ltb_spec (Z.abs m) (2 ^ 53)) as [Hs|Hl].
  - rewrite (roundToDouble_small m Hs). destruct m; reflexivity.
  - pose proof (roundToDouble_large m Hl) as H.
    pose proof (Z.pow_pos_nonneg 2 52).
    pose proof (Z.pow_pos_nonneg 2 53).
    destruct (roundToDouble m) as [v| |].
    + assert (Hv : v <> 0%Z) by lia.
      destruct v as [|p|p]; [contradiction| |]; cbn [orOne clamp1to4]; lia.
    + cbn. lia.
    + cbn. lia.
Qed.

Lemma clampCount_mathInt (v : option string) :
  clampCount v
  = match mathInt v with
    | Some m => Z.min 4 (Z.max 1 m)
    | None => 1%Z
    end.
Proof.
  unfold clampCount, parseInt.
  destruct (mathInt v) as [m|]; [apply clamp_roundToDouble | reflexivity].
Qed.

Lemma clampCount_range (v : option string) : (1 <= clampCount v <= 4)%Z.
Proof. rewrite clampCount_mathInt. destruct (mathInt v); lia. Qed.

Lemma parseStep_stepped (arg : string) (next : option string) (o : Options) :
  snd (parseStep arg next o) = takesValue arg.
Proof.
  unfold parseStep, takesValue.
  destruct (arg =? "--count"); [reflexivity|].
  destruct (arg =? "--ratio"); [reflexivity|].
  destruct (arg =? "--output"); [reflexivity|].
  destruct (arg =? "--name"); [reflexivity|].
  destruct (negb (startsWith arg "--")); reflexivity.
Qed.

(** Whatever one pass of the loop body keeps true, the whole loop keeps
    true; the pass may rely on its argument and the next one being among
    [all]. *)
Lemma parseLoop_preserves_on (all : list string) (P : Options -> Prop) :
  (forall arg next o,
      In arg all -> (forall v, next = Some v -> In v all) ->
      P o -> P (fst (parseStep arg next o))) ->
  forall args, incl args all -> forall o, P o -> P (parseLoop args o).
Proof.
  intros Hstep args.
  assert (H : forall n l, List.length l <= n -> incl l all ->
                          forall o, P o -> P (parseLoop l o)).
  { induction n as [|n IH]; intros l Hl Hin o Ho.
    - destruct l; [exact Ho | simpl in Hl; lia].
    - destruct l as [|arg rest]; [exact Ho|].
      simpl in Hl. cbn [parseLoop].
      assert (Hnext : forall v, hd_error rest = Some v -> In v all).
      { intros v Hv. destruct rest as [|v' rest']; [discriminate Hv|].
        injection Hv as ->. apply Hin. right; left; reflexivity. }
      pose proof (Hstep arg (hd_error rest) o
                        (Hin arg (or_introl eq_refl)) Hnext Ho) as Hs.
      destruct (parseStep arg (hd_error rest) o) as [o' stepped].
      cbn [fst] in Hs.
      assert (Hrest : incl rest all).
      { intros x Hx. apply Hin. right; exact Hx. }
      destruct stepped.
      + destruct rest as [|v rest']; [exact Hs|].
        apply IH; [simpl in Hl; lia | | exact Hs].
        intros x Hx. apply Hrest. right; exact Hx.
      + apply IH; [lia | exact Hrest | exact Hs]. }
  intros Hin o Ho. exact (H (List.length args) args (le_n _) Hin o Ho).
Qed.

Lemma parseLoop_preserves (P : Options -> Prop) :
  (forall arg next o, P o -> P (fst (parseStep arg next o))) ->
  forall args o, P o -> P (parseLoop args o).
Proof.
  intros Hstep args o Ho.
  apply (parseLoop_preserves_on args P); auto using incl_refl.
Qed.

Lemma parseLoop_app (pre l : list string) (o : Options) :
  aligned pre -> parseLoop (pre ++ l) o = parseLoop l (parseLoop pre o).
Proof.
  intros Hpre. revert o.
  induction Hpre as [|arg v pre' Hv _ IH|arg pre' Hv _ IH]; intros o.
  - reflexivity.
  - cbn [app parseLoop hd_error].
    pose proof (parseStep_stepped arg (Some v) o) as Hs.
    destruct (parseStep arg (Some v) o) as [o' stepped].
    cbn [snd] in Hs. rewrite Hs, Hv. apply IH.
  - cbn [app parseLoop].
    pose proof (parseStep_stepped arg (hd_error (pre' ++ l)) o) as Hs.
    pose proof (parseStep_stepped arg (hd_error pre') o) as Hs'.
    assert (Hfst : fst (parseStep arg (hd_error (pre' ++ l)) o)
                   = fst (parseStep arg (hd_error pre') o)).
    { unfold parseStep, takesValue in *.
      destruct (arg =? "--count"); [discriminate Hv|].
      destruct (arg =? "--ratio"); [discriminate Hv|].
      destruct (arg =? "--output"); [discriminate Hv|].
      destruct (arg =? "--name"); [discriminate Hv|].
      destruct (negb (startsWith arg "--")); reflexivity. }
    destruct (parseStep arg (hd_error (pre' ++ l)) o) as [o1 s1].
    destruct (parseStep arg (hd_error pre') o) as [o2 s2].
    cbn [fst snd] in *. subst s1 s2 o2. rewrite Hv. apply IH.
Qed.

(** What a successful [parseArgs] returns, and that it prints nothing. *)
Lemma parseArgs_returns (w w' : World) (o : Options) :
  parseArgs node w = (Return o, w') ->
  o = parseLoop (skipn 2 (argv w)) (defaultOptions node (cwd w))
  /\ w' = w /\ skipn 2 (argv w) <> [] /\ prompt o <> "".
Proof.
  unfold parseArgs, bind, process_argv, process_cwd, when, ret,
    console_error, process_exit.
  destruct (skipn 2 (argv w)) as [|a l] eqn:Hargs; cbn -[parseLoop].
  - intros H; discriminate H.
  - set (o' := parseLoop (a :: l) (defaultOptions node (cwd w))).
    destruct (prompt o') eqn:Hp; cbn -[parseLoop].
    + intros H; discriminate H.
    + intros H. inversion H; subst. repeat split; congruence.
Qed.

(** [parseArgs] either returns, or prints one line on the error stream and
    leaves the process with status 1, which happens only when there is no
    argument or no prompt among them. *)
Lemma parseArgs_outcomes (w : World) :
  (exists o, parseArgs node w = (Return o, w))
  \/ (exists line,
        parseArgs node w
        = (Exit 1%Z, withConsole w (console w ++ [(Stderr, line)]))
        /\ (skipn 2 (argv w) = []
            \/ prompt (parseLoop (skipn 2 (argv w))
                                 (defaultOptions node (cwd w))) = "")).
Proof.
  unfold parseArgs, bind, process_argv, process_cwd, when, ret,
    console_error, process_exit.
  destruct (skipn 2 (argv w)) as [|a l] eqn:Hargs; cbn -[parseLoop].
  - right. eexists. split; [reflexivity | left; reflexivity].
  - set (o' := parseLoop (a :: l) (defaultOptions node (cwd w))).
    destruct (prompt o') eqn:Hp; cbn -[parseLoop].
    + right. eexists. split; [reflexivity | right; reflexivity].
    + left. eexists. reflexivity.
Qed.

Lemma arrayIncludes_In (l : list string) (v : string) :
  arrayIncludes l (Some v) = true <-> In v l.
Proof.
  unfold arrayIncludes. rewrite existsb_exists. split.
  - intros [x [Hx Heq]]. apply String.eqb_eq in Heq. subst. exact Hx.
  - intros Hv. exists v. split; [exact Hv | apply String.eqb_refl].
Qed.

Lemma parseLoop_count_range (args : list string) (o : Options) :
  (1 <= count o <= 4)%Z -> (1 <= count (parseLoop args o) <= 4)%Z.
Proof.
  apply (parseLoop_preserves (fun o => (1 <= count o <= 4)%Z)).
  clear. intros arg next o Ho. unfold parseStep.
  destruct (arg =? "--count"); [apply clampCount_range|].
  destruct (arg =? "--ratio").
  { cbn [fst]. destruct (arrayIncludes _ next); [destruct next|]; exact Ho. }
  destruct (arg =? "--output"); [exact Ho|].
  destruct (arg =? "--name"); [exact Ho|].
  destruct (negb (startsWith arg "--")); exact Ho.
Qed.

Lemma parseLoop_aspectRatio_valid (args : list string) (o : Options) :
  In (aspectRatio o) VALID_ASPECT_RATIOS ->
  In (aspectRatio (parseLoop args o)) VALID_ASPECT_RATIOS.
Proof.
  apply (parseLoop_preserves
           (fun o => In (aspectRatio o) VALID_ASPECT_RATIOS)).
  clear. intros arg next o Ho. unfold parseStep.
  destruct (arg =? "--count"); [exact Ho|].
  destruct (arg =? "--ratio").
  { cbn [fst]. destruct next as [v|].
    - destruct (arrayIncludes VALID_ASPECT_RATIOS (Some v)) eqn:Hv;
        [apply arrayIncludes_In in Hv; exact Hv | exact Ho].
    - exact Ho. }
  destruct (arg =? "--output"); [exact Ho|].
  destruct (arg =? "--name"); [exact Ho|].
  destruct (negb (startsWith arg "--")); exact Ho.
Qed.

Lemma parseLoop_aspectRatio_kept (args : list string) (o : Options) :
  (forall a, In a args -> ~ In a VALID_ASPECT_RATIOS) ->
  aspectRatio (parseLoop args o) = aspectRatio o.
Proof.
  intros Hnone.
  apply (parseLoop_preserves_on args
           (fun o' => aspectRatio o' = aspectRatio o));
    [ | apply incl_refl | reflexivity ].
  intros arg next o' _ Hnext Ho'. unfold parseStep.
  destruct (arg =? "--count"); [exact Ho'|].
  destruct (arg =? "--ratio").
  { cbn [fst]. destruct next as [v|]; [|exact Ho'].
    destruct (arrayIncludes VALID_ASPECT_RATIOS (Some v)) eqn:Hv;
      [|exact Ho'].
    apply arrayIncludes_In in Hv.
    exfalso. exact (Hnone v (Hnext v eq_refl) Hv). }
  destruct (arg =? "--output"); [exact Ho'|].
  destruct (arg =? "--name"); [exact Ho'|].
  destruct (negb (startsWith arg "--")); exact Ho'.
Qed.

Lemma parseLoop_invalid_ratio (v : string) (rest : list string) (o : Options) :
  ~ In v VALID_ASPECT_RATIOS ->
  parseLoop ("--ratio" :: v :: rest) o = parseLoop rest o.
Proof.
  intros Hv. cbn [parseLoop hd_error]. unfold parseStep.
  cbn [String.eqb Ascii.eqb Bool.eqb].
  destruct (arrayIncludes VALID_ASPECT_RATIOS (Some v)) eqn:Hinc;
    [apply arrayIncludes_In in Hinc; contradiction | reflexivity].
Qed.

Lemma parseArgs_withArgs (w0 : World) (args : list string) :
  args <> [] ->
  parseArgs node (withArgs w0 args)
  = let o := parseLoop args (defaultOptions node (cwd w0)) in
    if negb (truthy (Some (prompt o)))
    then (Exit 1%Z,
          withConsole (withArgs w0 args)
            (console w0 ++ [(Stderr, "Error: Prompt is required")]))
    else (Return o, withArgs w0 args).
Proof.
  intros Hne. destruct args as [|a l]; [contradiction|].
  unfold parseArgs, bind, process_argv, process_cwd, when, ret,
    console_error, process_exit.
  cbn -[parseLoop].
  destruct (prompt (parseLoop (a :: l) _)); reflexivity.
Qed.

Lemma in_skipn_in {A} (n : nat) (l : list A) (x : A) :
  In x (skipn n l) -> In x l.
Proof.
  intros H. rewrite <- (firstn_skipn n l). apply in_or_app. right. exact H.
Qed.

(** A field that only one flag assigns keeps its value over arguments among
    which that flag does not occur. *)
Lemma parseLoop_keeps {A} (f : Options -> A) (flag : string) :
  (forall arg next o, arg <> flag -> f (fst (parseStep arg next o)) = f o) ->
  forall args o, ~ In flag args -> f (parseLoop args o) = f o.
Proof.
  intros Hstep args o Hnot.
  apply (parseLoop_preserves_on args (fun o' => f o' = f o));
    [ | apply incl_refl | reflexivity ].
  intros arg next o' Harg _ Ho'.
  rewrite Hstep; [exact Ho'|].
  intros ->. exact (Hnot Harg).
Qed.

Lemma parseStep_keeps_count arg next o :
  arg <> "--count" -> count (fst (parseStep arg next o)) = count o.
Proof.
  intros Hne. unfold parseStep.
  destruct (String.eqb_spec arg "--count") as [E|_]; [contradiction|].
  destruct (arg =? "--ratio").
  { cbn [fst]. destruct (arrayIncludes _ next); [destruct next|]; reflexivity. }
  destruct (arg =? "--output"); [reflexivity|].
  destruct (arg =? "--name"); [reflexivity|].
  destruct (negb (startsWith arg "--")); reflexivity.
Qed.

Lemma parseStep_keeps_aspectRatio arg next o :
  arg <> "--ratio" -> aspectRatio (fst (parseStep arg next o)) = aspectRatio o.
Proof.
  intros Hne. unfold parseStep.
  destruct (arg =? "--count"); [reflexivity|].
  destruct (String.eqb_spec arg "--ratio") as [E|_]; [contradiction|].
  destruct (arg =? "--output"); [reflexivity|].
  destruct (arg =? "--name"); [reflexivity|].
  destruct (negb (startsWith arg "--")); reflexivity.
Qed.

Lemma parseStep_keeps_outputDir arg next o :
  arg <> "--output" -> outputDir (fst (parseStep arg next o)) = outputDir o.
Proof.
  intros Hne. unfold parseStep.
  destruct (arg =? "--count"); [reflexivity|].
  destruct (arg =? "--ratio").
  { cbn [fst]. destruct (arrayIncludes _ next); [destruct next|]; reflexivity. }
  destruct (String.eqb_spec arg "--output") as [E|_]; [contradiction|].
  destruct (arg =? "--name"); [reflexivity|].
  destruct (negb (startsWith arg "--")); reflexivity.
Qed.

Lemma parseStep_keeps_name arg next o :
  arg <> "--name" -> name (fst (parseStep arg next o)) = name o.
Proof.
  intros Hne. unfold parseStep.
  destruct (arg =? "--count"); [reflexivity|].
  destruct (arg =? "--ratio").
  { cbn [fst]. destruct (arrayIncludes _ next); [destruct next|]; reflexivity. }
  destruct (arg =? "--output"); [reflexivity|].
  destruct (String.eqb_spec arg "--name") as [E|_]; [contradiction|].
  destruct (negb (startsWith arg "--")); reflexivity.
Qed.

End ArgumentParsing.

Section ParseArgsClaims.
Context (node : Node).

(** C8. Whenever [parseArgs] produces options, their count is an integer
    between 1 and 4.  It is the value that follows the last --count (at a
    place the loop reads as a flag) taken through
    [Math.min(4, Math.max(1, parseInt(value) || 1))]: 4 when the value
    parses to more than 4, 1 when it parses to less than 1, 1 when it does
    not parse as a number, and the number itself in between.  A --count that
    comes last, without a value, gives 1, and so do arguments without
    --count. *)
Theorem parseArgs_count_clamped (w w' : World) (o : Options)
  (H : parseArgs node w = (Return o, w')) :
  (1 <= count o <= 4)%Z
  /\ (forall pre v rest,
         skipn 2 (argv w) = (pre ++ "--count" :: v :: rest)%list ->
         aligned pre -> ~ In "--count" rest ->
         count o = clampCount (Some v)
         /\ (parseInt (Some v) = None -> count o = 1%Z)
         /\ (forall n,
                parseInt (Some v) = Some (Finite n) ->
                ((4 < n)%Z -> count o = 4%Z)
                /\ ((n < 1)%Z -> count o = 1%Z)
                /\ ((1 <= n <= 4)%Z -> count o = n))
         /\ (parseInt (Some v) = Some PosInfinity -> count o = 4%Z)
         /\ (parseInt (Some v) = Some NegInfinity -> count o = 1%Z))
  /\ (forall pre,
         skipn 2 (argv w) = (pre ++ ["--count"])%list ->
         aligned pre -> count o = 1%Z)
  /\ (~ In "--count" (skipn 2 (argv w)) -> count o = 1%Z).
Proof.
  apply parseArgs_returns in H. destruct H as [Ho _].
  split; [|split; [|split]].
  - subst o. apply parseLoop_count_range. cbn. lia.
  - intros pre v rest Hargs Hpre Hnot.
    assert (Hc : count o = clampCount (Some v)).
    { subst o. rewrite Hargs, parseLoop_app by exact Hpre.
      cbn [parseLoop hd_error]. unfold parseStep at 1.
      cbn [String.eqb Ascii.eqb Bool.eqb].
      rewrite (parseLoop_keeps count "--count" parseStep_keeps_count _ _ Hnot).
      reflexivity. }
    split; [exact Hc|]. rewrite Hc. unfold clampCount.
    split; [intros ->; reflexivity|].
    split; [|split; intros ->; reflexivity].
    intros n ->.
    repeat split; intros Hn; destruct n; cbn [orOne clamp1to4]; lia.
  - intros pre Hargs Hpre. subst o.
    rewrite Hargs, parseLoop_app by exact Hpre. reflexivity.
  - intros Hnot. subst o.
    rewrite (parseLoop_keeps count "--count" parseStep_keeps_count _ _ Hnot).
    reflexivity.
Qed.

(** C9. Whenever [parseArgs] produces options, their aspect ratio is one of
    VALID_ASPECT_RATIOS.  A --ratio value outside the list is ignored: the
    options are those of the same arguments without the flag and its value,
    nothing is printed, and the outcome of [parseArgs] is the same; when no
    argument is a valid ratio the default 16:9 is kept. *)
Theorem parseArgs_aspectRatio_valid (w w' : World) (o : Options)
  (H : parseArgs node w = (Return o, w')) :
  In (aspectRatio o) VALID_ASPECT_RATIOS
  /\ w' = w
  /\ ((forall a, In a (argv w) -> ~ In a VALID_ASPECT_RATIOS) ->
      aspectRatio o = "16:9")
  /\ (forall pre v rest o0,
         aligned pre -> ~ In v VALID_ASPECT_RATIOS ->
         parseLoop (pre ++ "--ratio" :: v :: rest) o0
         = parseLoop (pre ++ rest) o0)
  /\ (forall pre v rest w0,
         aligned pre -> ~ In v VALID_ASPECT_RATIOS -> (pre ++ rest)%list <> [] ->
         let r1 := parseArgs node (withArgs w0 (pre ++ "--ratio" :: v :: rest)) in
         let r2 := parseArgs node (withArgs w0 (pre ++ rest)) in
         fst r1 = fst r2 /\ console (snd r1) = console (snd r2)).
Proof.
  apply parseArgs_returns in H. destruct H as [Ho [Hw _]].
  split; [|split; [|split; [|split]]].
  - subst o. apply parseLoop_aspectRatio_valid. cbn. tauto.
  - exact Hw.
  - intros Hnone. subst o. rewrite parseLoop_aspectRatio_kept; [reflexivity|].
    intros a Ha. apply Hnone. exact (in_skipn_in _ _ _ Ha).
  - intros pre v rest o0 Hpre Hv.
    rewrite !parseLoop_app by exact Hpre.
    apply parseLoop_invalid_ratio. exact Hv.
  - intros pre v rest w0 Hpre Hv Hne r1 r2. subst r1 r2.
    assert (Heq : forall o0, parseLoop (pre ++ "--ratio" :: v :: rest) o0
                             = parseLoop (pre ++ rest) o0).
    { intros o0. rewrite !parseLoop_app by exact Hpre.
      apply parseLoop_invalid_ratio. exact Hv. }
    rewrite !parseArgs_withArgs;
      [ | exact Hne | destruct pre; discriminate ].
    rewrite Heq. cbn zeta.
    destruct (negb (truthy (Some (prompt (parseLoop (pre ++ rest) _)))));
      split; reflexivity.
Qed.

End ParseArgsClaims.

Lemma parseArgs_count_clamped_witness :
  count (parseLoop ["a cat"; "--count"; "9"]
                   (defaultOptions sampleNode "/work")) = 4%Z.
Proof.
  destruct (proj1 (proj2 (parseArgs_count_clamped sampleNode worldCountNine
                            worldCountNine _ eq_refl))
              ["a cat"] "9" []
              eq_refl (aligned_plain "a cat" [] eq_refl aligned_nil)
              (fun H => H)) as [_ [_ [Hn _]]].
  exact (proj1 (Hn 9%Z eq_refl) eq_refl).
Defined.

Lemma parseArgs_aspectRatio_valid_witness :
  In (aspectRatio (parseLoop ["a cat"; "--ratio"; "7:5"]
                             (defaultOptions sampleNode "/work")))
     VALID_ASPECT_RATIOS.
Proof.
  exact (proj1 (parseArgs_aspectRatio_valid sampleNode worldBadRatio
                  worldBadRatio _ eq_refl)).
Defined.

Section ImageGeneration.
Context (node : Node).

Lemma pathsFrom_length o dir ts total i rest :
  List.length (pathsFrom node o dir ts total i rest) = List.length rest.
Proof.
  revert i. induction rest as [|p rest IH]; intros i; cbn;
    [reflexivity | now rewrite IH].
Qed.

Lemma pathsFrom_nth o dir ts total rest :
  forall i k part,
    nth_error rest k = Some part ->
    nth_error (pathsFrom node o dir ts total i rest) k
    = Some (pathOf node o dir ts total (i + k) part).
Proof.
  induction rest as [|p rest IH]; intros i k part Hk.
  - destruct k; discriminate Hk.
  - destruct k as [|k]; cbn in *.
    + injection Hk as ->. now rewrite Nat.add_0_r.
    + rewrite (IH (S i) k part Hk).
      replace (i + S k) with (S i + k) by lia. reflexivity.
Qed.

Lemma filesFrom_paths o dir ts total i rest :
  map fst (filesFrom node o dir ts total i rest)
  = pathsFrom node o dir ts total i rest.
Proof.
  revert i. induction rest as [|p rest IH]; intros i; cbn;
    [reflexivity | now rewrite IH].
Qed.

Lemma filesFrom_data o dir ts total i rest :
  map snd (filesFrom node o dir ts total i rest)
  = map (fun part => base64_decode node (dataOf part)) rest.
Proof.
  revert i. induction rest as [|p rest IH]; intros i; cbn;
    [reflexivity | now rewrite IH].
Qed.

(** The saving loop over image parts.  It calls the model no more and prints
    on the output stream only.  When it returns, every part had its data and
    every write went through: there is one path and one file per part.  When
    it throws, it does so at some part, after the files of the parts before
    it: because that part has no data, or because the write of its file
    threw. *)
Lemma saveLoop_spec o dir ts total rest :
  Forall (fun p => isImagePart p = true) rest ->
  forall i acc w,
    let r := saveLoop node o dir ts total i rest acc w in
    sent (snd r) = sent w
    /\ (exists lines,
           console (snd r)
           = app (console w) (map (fun l => (Stdout, l)) lines))
    /\ match fst r with
       | Return paths =>
           paths = app acc (pathsFrom node o dir ts total i rest)
           /\ written (snd r)
              = app (written w) (filesFrom node o dir ts total i rest)
           /\ existing (snd r)
              = app (existing w) (pathsFrom node o dir ts total i rest)
           /\ forallb hasData rest = true
       | Throw e =>
           exists k part,
             nth_error rest k = Some part
             /\ written (snd r)
                = app (written w)
                      (filesFrom node o dir ts total i (firstn k rest))
             /\ existing (snd r)
                = app (existing w)
                      (pathsFrom node o dir ts total i (firstn k rest))
             /\ ((hasData part = false /\ e = bufferTypeError)
                 \/ (hasData part = true
                     /\ fsWrite w
                          (app (existing w)
                               (pathsFrom node o dir ts total i
                                          (firstn k rest)))
                          (pathOf node o dir ts total (i + k) part)
                        = Some e))
       | Exit _ => False
       end.
Proof.
  induction 1 as [|p rest Hp _ IH]; intros i acc w r; subst r.
  - cbn. rewrite !app_nil_r. repeat split; auto. exists []. cbn.
    rewrite app_nil_r. reflexivity.
  - cbn [saveLoop].
    unfold isImagePart in Hp.
    destruct (inlineData p) as [b|] eqn:Hin; [|discriminate Hp].
    destruct (mimeType b) as [mt|] eqn:Hmt; [|discriminate Hp].
    assert (Hpath : path_join node dir
                      (fileName (baseNameOf o ts) total i (extOf mt))
                    = pathOf node o dir ts total i p).
    { unfold pathOf, mimeOf. rewrite Hin, Hmt. reflexivity. }
    rewrite Hpath.
    unfold bind, Buffer_from_base64, writeFileSync, process_cwd, console_log.
    destruct (data b) as [d|] eqn:Hdata.
    + assert (Hd : dataOf p = d)
        by (unfold dataOf; rewrite Hin, Hdata; reflexivity).
      assert (Hh : hasData p = true)
        by (unfold hasData; rewrite Hin, Hdata; reflexivity).
      unfold ret. cbv beta iota.
      destruct (fsWrite w (existing w) (pathOf node o dir ts total i p))
        as [e|] eqn:Hw.
      * cbn [fst snd]. split; [reflexivity|].
        split; [exists []; cbn; rewrite app_nil_r; reflexivity|].
        exists 0, p. cbn [nth_error firstn filesFrom pathsFrom].
        rewrite !app_nil_r, Nat.add_0_r. repeat split; auto.
      * cbn -[saveLoop String.append pathsFrom filesFrom].
        match goal with
        | |- context [saveLoop node o dir ts total (S i) rest ?a ?w0] =>
            specialize (IH (S i) a w0); cbv zeta in IH;
            destruct (saveLoop node o dir ts total (S i) rest a w0)
              as [[paths|e|c] w'] eqn:Hrun
        end;
          cbn [fst snd] in IH |- *;
          cbn -[String.append pathsFrom filesFrom] in IH;
          destruct IH as [Hsent [[lines Hl] IH]].
        -- destruct IH as [Hp' [Hwr [Hex Hall]]].
           split; [exact Hsent|].
           split; [eexists (_ :: lines); rewrite Hl, <- app_assoc;
                   reflexivity|].
           cbn [pathsFrom filesFrom forallb].
           rewrite Hp', Hwr, Hex, Hd, Hh, Hall, <- !app_assoc.
           repeat split; auto.
        -- destruct IH as [k [part [Hk [Hwr [Hex Hcause]]]]].
           split; [exact Hsent|].
           split; [eexists (_ :: lines); rewrite Hl, <- app_assoc;
                   reflexivity|].
           exists (S k), part.
           cbn [nth_error firstn pathsFrom filesFrom].
           rewrite Hwr, Hex, Hd, <- !app_assoc.
           replace (i + S k) with (S i + k) by lia.
           rewrite <- !app_assoc in Hcause. repeat split; auto.
        -- destruct IH.
    + unfold throw. cbn [fst snd].
      assert (Hh : hasData p = false)
        by (unfold hasData; rewrite Hin, Hdata; reflexivity).
      split; [reflexivity|].
      split; [exists []; cbn; rewrite app_nil_r; reflexivity|].
      exists 0, p. cbn [nth_error firstn filesFrom pathsFrom].
      rewrite !app_nil_r. repeat split; auto.
Qed.

Lemma forEach_log {A} (f : A -> string) (l : list A) (w : World) :
  forEach l (fun x w0 =>
               (Return tt, withConsole w0 (console w0 ++ [(Stdout, f x)])%list)) w
  = (Return tt,
     withConsole w (console w ++ map (fun x => (Stdout, f x)) l)%list).
Proof.
  revert w. induction l as [|x l IH]; intros w; cbn [forEach map].
  - unfold ret, withConsole. rewrite app_nil_r. destruct w; reflexivity.
  - unfold bind. rewrite IH. cbn.
    rewrite <- app_assoc. reflexivity.
Qed.

(** The runs of [generateImages], case by case: what is returned or thrown,
    the calls made to the model, the directory made and the files written. *)
Lemma generateImages_spec (o : Options) (w : World) :
  let req := requestOf o in
  let r := generateImages node o w in
  if negb (truthy (env_GEMINI_API_KEY w))
  then r = (Throw missingKeyError, w)
  else
    sent (snd r) = (sent w ++ [req])%list /\
    match gemini w (List.length (sent w)) req with
    | Reject e => fst r = Throw e /\ written (snd r) = written w
                  /\ existing (snd r) = existing w
    | Resolve result =>
        match outputDir o with
        | None => fst r = Throw invalidPathError
                  /\ written (snd r) = written w
                  /\ existing (snd r) = existing w
        | Some d =>
            let dir := path_resolve node (cwd w) d in
            let imageParts := imagePartsOf result in
            let present := existsb (String.eqb dir) (existing w) in
            match (if present then None else fsMkdir w (existing w) dir) with
            | Some e => fst r = Throw e /\ written (snd r) = written w
                        /\ existing (snd r) = existing w
            | None =>
                let made := if present then existing w
                            else app (existing w) [dir] in
                match imageParts with
                | [] =>
                    fst r = Throw noImagesError
                    /\ written (snd r) = written w
                    /\ existing (snd r) = made
                    /\ (forall part t,
                           In part (responseParts result) ->
                           text part = Some t -> t <> "" ->
                           In (Stdout, t) (console (snd r)))
                | _ :: _ =>
                    let total := List.length imageParts in
                    match fst r with
                    | Return paths =>
                        paths = pathsFrom node o dir (clock w) total 0
                                          imageParts
                        /\ written (snd r)
                           = app (written w)
                                 (filesFrom node o dir (clock w) total 0
                                            imageParts)
                        /\ existing (snd r)
                           = app made
                                 (pathsFrom node o dir (clock w) total 0
                                            imageParts)
                        /\ forallb hasData imageParts = true
                    | Throw e =>
                        exists k part,
                          nth_error imageParts k = Some part
                          /\ written (snd r)
                             = app (written w)
                                   (filesFrom node o dir (clock w) total 0
                                              (firstn k imageParts))
                          /\ existing (snd r)
                             = app made
                                   (pathsFrom node o dir (clock w) total 0
                                              (firstn k imageParts))
                          /\ ((hasData part = false /\ e = bufferTypeError)
                              \/ (hasData part = true
                                  /\ fsWrite w
                                       (app made
                                            (pathsFrom node o dir (clock w)
                                               total 0 (firstn k imageParts)))
                                       (pathOf node o dir (clock w) total k
                                               part)
                                     = Some e))
                    | Exit _ => False
                    end
                end
            end
        end
    end.
Proof.
  intros req r. subst r req.
  unfold generateImages, bind, getenv_GEMINI_API_KEY, console_log,
    generateContent, throw, process_cwd, existsSync, when, mkdirSync,
    Date_now, ret, imagePartsOf.
  cbn -[saveLoop requestOf filter String.append forEach].
  destruct (negb (truthy (env_GEMINI_API_KEY w))); [reflexivity|].
  cbn -[saveLoop requestOf filter String.append forEach].
  destruct (gemini w (List.length (sent w)) (requestOf o)) as [result|e];
    cbn -[saveLoop requestOf filter String.append forEach]; [|auto].
  destruct (outputDir o) as [d|];
    cbn -[saveLoop requestOf filter String.append forEach]; [|auto].
  assert (Htext : forall part t,
             In part (responseParts result) ->
             text part = Some t -> t <> "" ->
             In part (filter hasText (responseParts result))).
  { intros part t Hin Ht Hne. apply filter_In. split; [exact Hin|].
    unfold hasText. rewrite Ht. destruct t; [contradiction | reflexivity]. }
  assert (Himg : Forall (fun p => isImagePart p = true)
                        (filter isImagePart (responseParts result))).
  { apply Forall_forall. intros p Hp. apply filter_In in Hp. tauto. }
  destruct (existsb (String.eqb (path_resolve node (cwd w) d)) (existing w))
    eqn:Hpresent;
    cbn -[saveLoop requestOf filter String.append forEach];
    [|destruct (fsMkdir w (existing w) (path_resolve node (cwd w) d))
        as [e|] eqn:Hmk;
      cbn -[saveLoop requestOf filter String.append forEach]; [auto|]].
  all: destruct (filter isImagePart (responseParts result)) as [|p ips].
  all: try (destruct (filter hasText (responseParts result))
              as [|tp tps] eqn:Htps;
            [ cbn; repeat split; auto;
              intros part t Hin Ht Hne; destruct (Htext part t Hin Ht Hne)
            | cbn -[String.append forEach];
              rewrite (forEach_log (fun x => match text x with
                                             | Some t0 => t0
                                             | None => ""
                                             end));
              cbn;
              (repeat split; auto; intros part t Hin Ht Hne;
               apply in_or_app; right;
               change (In (Stdout, t)
                          (map (fun x => (Stdout, match text x with
                                                  | Some t0 => t0
                                                  | None => ""
                                                  end)) (tp :: tps)));
               apply in_map_iff; exists part; rewrite Ht; split;
               [reflexivity | exact (Htext part t Hin Ht Hne)]) ]).
  all: cbn -[saveLoop String.append pathsFrom filesFrom firstn nth_error
             forallb];
    match goal with
    | Hparts : Forall _ (?p0 :: ?l0)
      |- context [saveLoop node ?o0 ?dir ?ts ?n 0 (?p0 :: ?l0) [] ?w0] =>
        let Hsave := fresh "Hsave" in
        pose proof (saveLoop_spec o0 dir ts n (p0 :: l0) Hparts 0 [] w0)
          as Hsave;
        cbv zeta in Hsave;
        destruct (saveLoop node o0 dir ts n 0 (p0 :: l0) [] w0)
          as [[paths|e|c] w'];
        cbn -[String.append pathsFrom filesFrom firstn nth_error forallb]
          in Hsave |- *;
        let Hsent := fresh "Hsent" in
        destruct Hsave as [Hsent [_ Hsave]];
        (split; [exact Hsent|]); exact Hsave
    end.
Qed.

(** The calls [generateImages] makes: none without the key, one with it. *)
Lemma generateImages_sent (o : Options) (w : World) :
  sent (snd (generateImages node o w))
  = if truthy (env_GEMINI_API_KEY w)
    then (sent w ++ [requestOf o])%list
    else sent w.
Proof.
  pose proof (generateImages_spec o w) as Hs. cbv zeta in Hs.
  destruct (truthy (env_GEMINI_API_KEY w)); cbn [negb] in Hs.
  - destruct Hs as [Hsent _]. exact Hsent.
  - rewrite Hs. reflexivity.
Qed.

(** A run of [generateImages] does not end the process. *)
Lemma generateImages_no_exit (o : Options) (w : World) (c : Z) :
  fst (generateImages node o w) <> Exit c.
Proof.
  pose proof (generateImages_spec o w) as Hs. cbv zeta in Hs.
  intros Hexit.
  destruct (negb (truthy (env_GEMINI_API_KEY w))).
  - rewrite Hs in Hexit. discriminate Hexit.
  - destruct Hs as [_ Hs].
    destruct (gemini w (List.length (sent w)) (requestOf o)) as [result|e];
      [|destruct Hs as [Hs _]; congruence].
    destruct (outputDir o) as [d|]; [|destruct Hs as [Hs _]; congruence].
    destruct (if existsb (String.eqb (path_resolve node (cwd w) d))
                         (existing w)
              then None
              else fsMkdir w (existing w) (path_resolve node (cwd w) d));
      [destruct Hs as [Hs _]; congruence|].
    destruct (imagePartsOf result); [destruct Hs as [Hs _]; congruence|].
    rewrite Hexit in Hs. exact Hs.
Qed.

(** C1, as the code has it. [generateImages] calls the model at most once:
    not at all when GEMINI_API_KEY is not set, exactly once otherwise.  A
    rejection of that call is thrown to the caller as it is.  A response
    without an image makes the run fail as well: with the no-image error
    when the output directory exists or is made, with the error of the
    file system when making it fails.  In no case is there a second call. *)
Theorem generateImages_single_attempt (o : Options) (w : World) :
  let r := generateImages node o w in
  let req := requestOf o in
  (truthy (env_GEMINI_API_KEY w) = false -> sent (snd r) = sent w)
  /\ (truthy (env_GEMINI_API_KEY w) = true ->
      sent (snd r) = (sent w ++ [req])%list)
  /\ List.length (sent (snd r)) <= List.length (sent w) + 1
  /\ (forall e,
         truthy (env_GEMINI_API_KEY w) = true ->
         gemini w (List.length (sent w)) req = Reject e ->
         fst r = Throw e)
  /\ (forall result d,
         truthy (env_GEMINI_API_KEY w) = true ->
         gemini w (List.length (sent w)) req = Resolve result ->
         outputDir o = Some d ->
         imagePartsOf result = [] ->
         let dir := path_resolve node (cwd w) d in
         (exists e, fst r = Throw e)
         /\ (existsb (String.eqb dir) (existing w) = true ->
             fst r = Throw noImagesError)
         /\ (existsb (String.eqb dir) (existing w) = false ->
             fst r = Throw (match fsMkdir w (existing w) dir with
                            | Some e => e
                            | None => noImagesError
                            end))).
Proof.
  intros r req. subst r req.
  pose proof (generateImages_spec o w) as Hs. cbv zeta in Hs.
  destruct (truthy (env_GEMINI_API_KEY w)); cbn [negb] in Hs.
  - destruct Hs as [Hsent Hs].
    repeat split; try discriminate; auto.
    + rewrite Hsent, length_app. cbn. lia.
    + intros e _ He. rewrite He in Hs. tauto.
    + rewrite H0, H1, H2 in Hs.
      destruct (existsb _ (existing w));
        [|destruct (fsMkdir w (existing w) _)];
        destruct Hs as [Hs _]; eexists; exact Hs.
    + intros Hpresent. rewrite H0, H1, H2, Hpresent in Hs. tauto.
    + intros Hpresent. rewrite H0, H1, H2, Hpresent in Hs.
      destruct (fsMkdir w (existing w) _); tauto.
  - rewrite Hs. cbn [fst snd].
    repeat split; try discriminate; auto. lia.
Qed.

(** C3, as the code has it. When [generateImages] throws (the output
    directory being given), the value thrown is one of: the plain Error for
    the missing key; whatever the call to the model was rejected with,
    unchanged; what the file system threw when the output directory could
    not be made; the plain Error for a response without image; the TypeError
    for an image part without data; what the file system threw when the file
    of an image part could not be written.  The tool puts no tag on any of
    them.  [main] prints the message on the error stream and leaves with
    status 1. *)
Theorem generateImages_error_delivered (o : Options) (w : World)
  (e : Thrown) (d : string)
  (Hd : outputDir o = Some d)
  (H : fst (generateImages node o w) = Throw e) :
  let dir := path_resolve node (cwd w) d in
  ((truthy (env_GEMINI_API_KEY w) = false /\ e = missingKeyError)
   \/ (truthy (env_GEMINI_API_KEY w) = true
       /\ gemini w (List.length (sent w)) (requestOf o) = Reject e)
   \/ (truthy (env_GEMINI_API_KEY w) = true
       /\ exists result,
            gemini w (List.length (sent w)) (requestOf o) = Resolve result
            /\ ((existsb (String.eqb dir) (existing w) = false
                 /\ fsMkdir w (existing w) dir = Some e)
                \/ (imagePartsOf result = [] /\ e = noImagesError)
                \/ (exists k part,
                       nth_error (imagePartsOf result) k = Some part
                       /\ hasData part = false
                       /\ e = bufferTypeError)
                \/ (exists k part files,
                       nth_error (imagePartsOf result) k = Some part
                       /\ hasData part = true
                       /\ fsWrite w files
                            (pathOf node o dir (clock w)
                                    (List.length (imagePartsOf result)) k
                                    part)
                          = Some e))))
  /\ (parseArgs node w = (Return o, w) ->
      exists w',
        main node w = (Exit 1%Z, w')
        /\ In (Stderr, nl ++ "❌ Error: " ++ errorText e) (console w')).
Proof.
  intros dir. subst dir. split.
  - pose proof (generateImages_spec o w) as Hs. cbv zeta in Hs.
    destruct (truthy (env_GEMINI_API_KEY w)); cbn [negb] in Hs.
    + destruct Hs as [_ Hs]. right.
      destruct (gemini w (List.length (sent w)) (requestOf o))
        as [result|e'].
      * right. split; [reflexivity|]. exists result.
        split; [reflexivity|].
        rewrite Hd in Hs.
        destruct (existsb (String.eqb (path_resolve node (cwd w) d))
                          (existing w)) eqn:Hpresent;
          [|destruct (fsMkdir w (existing w) (path_resolve node (cwd w) d))
              as [e'|] eqn:Hmk;
            [left; destruct Hs as [Hs _]; rewrite Hs in H;
             injection H as <-; auto|]].
        all: right;
          destruct (imagePartsOf result) as [|p ips];
          [ left; destruct Hs as [Hs _]; rewrite Hs in H;
            injection H as <-; auto
          | right; rewrite H in Hs;
            destruct Hs as [k [part [Hk [_ [_ [[Hno He]|[Hyes Hwr]]]]]]];
            [ left; exists k, part; auto
            | right; exists k, part; eexists; eauto ] ].
      * left. destruct Hs as [Hs _]. rewrite Hs in H. injection H as <-. auto.
    + left. rewrite Hs in H. injection H as <-. auto.
  - intros Hparse. unfold main, tryCatch.
    unfold bind at 1. rewrite Hparse.
    unfold bind at 1.
    destruct (generateImages node o w) as [res w2]. cbn [fst] in H. subst res.
    unfold bind, console_error, when, process_exit, ret.
    destruct (mentionsKey e); cbn -[String.append];
      eexists; (split; [reflexivity|]); cbn -[String.append];
      rewrite ?in_app_iff; cbn -[String.append]; tauto.
Qed.

(** C4, as the code has it. [generateImages] fails whenever no image comes
    back: without GEMINI_API_KEY it throws the missing-key error, when the
    call to the model is rejected it throws what the call was rejected with,
    and when the response has no image part (the output directory being
    given) it throws as well: the no-image error, once the output directory
    is there, after printing the text parts of the response and without
    writing anything.  The converse does not hold: a response with image
    parts leads to a failure when the file system or a part without data
    fails the run.  When it returns, the response had image parts, and
    there is one path per image part, the decoded data of each part being
    written at its path; it does return when the response has image parts
    that all hold data and the file system does not fail. *)
Theorem generateImages_fails_without_image (o : Options) (w : World) :
  let r := generateImages node o w in
  let req := requestOf o in
  (truthy (env_GEMINI_API_KEY w) = false -> fst r = Throw missingKeyError)
  /\ (forall e,
         truthy (env_GEMINI_API_KEY w) = true ->
         gemini w (List.length (sent w)) req = Reject e ->
         fst r = Throw e)
  /\ (forall result d,
         truthy (env_GEMINI_API_KEY w) = true ->
         gemini w (List.length (sent w)) req = Resolve result ->
         outputDir o = Some d ->
         let imageParts := imagePartsOf result in
         let dir := path_resolve node (cwd w) d in
         let files :=
           filesFrom node o dir (clock w) (List.length imageParts) 0
                     imageParts in
         let directory :=
           if existsb (String.eqb dir) (existing w) then None
           else fsMkdir w (existing w) dir in
         (imageParts = [] -> exists e, fst r = Throw e)
         /\ (imageParts = [] -> directory = None ->
             fst r = Throw noImagesError
             /\ written (snd r) = written w
             /\ (forall part t,
                    In part (responseParts result) ->
                    text part = Some t -> t <> "" ->
                    In (Stdout, t) (console (snd r))))
         /\ (forall paths,
                fst r = Return paths ->
                imageParts <> []
                /\ List.length paths = List.length imageParts
                /\ written (snd r) = (written w ++ files)%list
                /\ map fst files = paths
                /\ map snd files
                   = map (fun part => base64_decode node (dataOf part))
                         imageParts)
         /\ (imageParts <> [] -> directory = None ->
             forallb hasData imageParts = true ->
             (forall files' p, fsWrite w files' p = None) ->
             exists paths, fst r = Return paths)).
Proof.
  intros r req. subst r req.
  pose proof (generateImages_spec o w) as Hs. cbv zeta in Hs.
  split; [|split].
  - intros Hkey. rewrite Hkey in Hs. cbn [negb] in Hs. rewrite Hs. reflexivity.
  - intros e Hkey He. rewrite Hkey in Hs. cbn [negb] in Hs.
    rewrite He in Hs. tauto.
  - intros result d Hkey Hres Hd imageParts dir files directory.
    subst imageParts dir files directory.
    rewrite Hkey in Hs. cbn [negb] in Hs. destruct Hs as [_ Hs].
    rewrite Hres, Hd in Hs.
    destruct (if existsb (String.eqb (path_resolve node (cwd w) d))
                         (existing w)
              then None
              else fsMkdir w (existing w) (path_resolve node (cwd w) d))
      as [e|].
    + destruct Hs as [Hthrow _].
      split; [intros _; eexists; exact Hthrow|].
      split; [intros _ Hdir; discriminate Hdir|].
      split; [intros paths Hret; rewrite Hret in Hthrow; discriminate Hthrow|].
      intros _ Hdir; discriminate Hdir.
    + destruct (imagePartsOf result) as [|p ips] eqn:Hips.
      * destruct Hs as [Hthrow [Hw [_ Hlog]]].
        split; [intros _; eexists; exact Hthrow|].
        split; [auto|].
        split; [intros paths Hret; rewrite Hret in Hthrow;
                discriminate Hthrow|].
        intros Hne. contradiction.
      * split; [discriminate|]. split; [discriminate|].
        split.
        -- intros paths Hret. rewrite Hret in Hs.
           destruct Hs as [Hpaths [Hw _]].
           split; [discriminate|].
           rewrite Hpaths.
           split; [apply pathsFrom_length|].
           split; [exact Hw|].
           split; [apply filesFrom_paths | apply filesFrom_data].
        -- intros _ _ Hall Hfs.
           destruct (fst (generateImages node o w)) as [paths|e|c].
           ++ exists paths. reflexivity.
           ++ destruct Hs as [k [part [Hk [_ [_ [[Hno _]|[_ Hwr]]]]]]].
              ** rewrite forallb_forall in Hall.
                 rewrite (Hall part (nth_error_In _ _ Hk)) in Hno.
                 discriminate Hno.
              ** rewrite Hfs in Hwr. discriminate Hwr.
           ++ destruct Hs.
Qed.

(** C10. On a run that returns, [generateImages] has found a response with
    image parts and returns exactly one path per image part, in order; the
    files written are those paths.  The name of the file of index i has the
    suffix -(i+1) when the response has more than one image part, and no
    suffix otherwise.  The number of paths is that of the image parts, not
    the requested count: it can be smaller, and it can be larger. *)
Theorem generateImages_one_path_per_image (o : Options) (w w' : World)
  (paths : list string)
  (H : generateImages node o w = (Return paths, w')) :
  (exists result d,
      gemini w (List.length (sent w)) (requestOf o) = Resolve result
      /\ outputDir o = Some d
      /\ let imageParts := imagePartsOf result in
         let dir := path_resolve node (cwd w) d in
         let baseName := baseNameOf o (clock w) in
         List.length paths = List.length imageParts
         /\ 0 < List.length imageParts
         /\ map fst (skipn (List.length (written w)) (written w')) = paths
         /\ (forall i part,
                nth_error imageParts i = Some part ->
                nth_error paths i
                = Some (path_join node dir
                          (if Nat.ltb 1 (List.length imageParts)
                           then baseName ++ "-" ++ showNat (i + 1) ++ "."
                                ++ extOf (mimeOf part)
                           else baseName ++ "." ++ extOf (mimeOf part)))))
  /\ (exists paths1 w1,
        generateImages sampleNode fourOptions worldOnePng
        = (Return paths1, w1)
        /\ (Z.of_nat (List.length paths1) < count fourOptions)%Z)
  /\ (exists paths2 w2,
        generateImages sampleNode sampleOptions worldTwoImages
        = (Return paths2, w2)
        /\ (count sampleOptions < Z.of_nat (List.length paths2))%Z).
Proof.
  split; [|split].
  - pose proof (generateImages_spec o w) as Hs. cbv zeta in Hs.
    rewrite H in Hs. cbn [fst snd] in Hs.
    destruct (negb (truthy (env_GEMINI_API_KEY w))); [discriminate Hs|].
    destruct Hs as [_ Hs].
    destruct (gemini w (List.length (sent w)) (requestOf o))
      as [result|e]; [|destruct Hs as [Hs _]; discriminate Hs].
    destruct (outputDir o) as [d|];
      [|destruct Hs as [Hs _]; discriminate Hs].
    exists result, d. split; [reflexivity|]. split; [reflexivity|].
    cbv zeta.
    destruct (if existsb (String.eqb (path_resolve node (cwd w) d))
                         (existing w)
              then None
              else fsMkdir w (existing w) (path_resolve node (cwd w) d));
      [destruct Hs as [Hs _]; discriminate Hs|].
    destruct (imagePartsOf result) as [|p ips];
      [destruct Hs as [Hs _]; discriminate Hs|].
    destruct Hs as [Hpaths [Hw _]].
    rewrite Hpaths.
    split; [apply pathsFrom_length|].
    split; [cbn; lia|].
    split.
    + rewrite Hw, skipn_app, skipn_all, Nat.sub_diag. cbn [app skipn].
      apply filesFrom_paths.
    + intros i part Hi.
      rewrite (pathsFrom_nth o _ _ _ _ 0 i part Hi). reflexivity.
  - eexists. eexists. split; [vm_compute; reflexivity | vm_compute; reflexivity].
  - eexists. eexists. split; [vm_compute; reflexivity | vm_compute; reflexivity].
Qed.

End ImageGeneration.

(** *** Runs of the tool on the sample worlds *)

(** A rate-limited first call is not tried again: the caller gets the error
    after one call, although a second call would have brought an image. *)
Lemma generateImages_transient_not_retried :
  let r := generateImages sampleNode sampleOptions worldRateLimited in
  fst r = Throw rateLimitError
  /\ List.length (sent (snd r)) = 1
  /\ ~ (1 < List.length (sent (snd r)))
  /\ gemini worldRateLimited 1 (requestOf sampleOptions)
     = Resolve (responseOf [imagePart pngBlob]).
Proof.
  cbv zeta. repeat split; try (vm_compute; reflexivity).
  vm_compute. intros H. inversion H as [|m H1]; inversion H1.
Qed.

Lemma generateImages_single_attempt_witness :
  fst (generateImages sampleNode sampleOptions worldRateLimited)
  = Throw rateLimitError.
Proof.
  exact (proj1 (proj2 (proj2 (proj2
           (generateImages_single_attempt sampleNode sampleOptions
              worldRateLimited))))
           rateLimitError eq_refl eq_refl).
Defined.

(** When the model declines in words, the caller gets a plain Error, not a
    GenerationError, and [main] prints its message and leaves with 1. *)
Lemma generateImages_error_is_plain :
  fst (generateImages sampleNode sampleOptions worldRefused)
  = Throw noImagesError
  /\ noImagesError
     = JsError "Error"
         "No images were generated. The model may have refused or encountered an issue."
  /\ ~ isGenerationError noImagesError
  /\ fst (main sampleNode worldRefused) = Exit 1%Z.
Proof.
  split; [vm_compute; reflexivity|].
  split; [reflexivity|].
  split; [|vm_compute; reflexivity].
  intros [message H]. discriminate H.
Qed.

Lemma generateImages_error_delivered_witness :
  exists w',
    main sampleNode worldRefused = (Exit 1%Z, w')
    /\ In (Stderr, nl ++ "❌ Error: " ++ errorText noImagesError)
          (console w').
Proof.
  exact (proj2 (generateImages_error_delivered sampleNode sampleOptions
                  worldRefused noImagesError "/work/generated-images"
                  eq_refl eq_refl) eq_refl).
Defined.

(** An image comes back and the run fails all the same: with the arguments
    [a cat --name sub/hero] the key is set, the one call to the model
    resolves with a PNG image, and writing the file throws, the directory
    [sub] being missing: failing is not the same as no image coming back. *)
Lemma generateImages_fails_with_image :
  let r := generateImages sampleNode heroOptions worldMissingSubdir in
  let result := responseOf [imagePart pngBlob] in
  parseArgs sampleNode worldMissingSubdir
  = (Return heroOptions, worldMissingSubdir)
  /\ sent (snd r) = [requestOf heroOptions]
  /\ gemini worldMissingSubdir 0 (requestOf heroOptions) = Resolve result
  /\ imagePartsOf result = [imagePart pngBlob]
  /\ fst r = Throw enoentError
  /\ ~ ((exists e, fst r = Throw e) <-> imagePartsOf result = []).
Proof.
  cbv zeta. repeat split; try (vm_compute; reflexivity).
  intros [Hfails _].
  assert (Hnone : imagePartsOf (responseOf [imagePart pngBlob]) = []).
  { apply Hfails. exists enoentError. vm_compute. reflexivity. }
  discriminate Hnone.
Qed.

Lemma generateImages_fails_without_image_witness :
  exists paths,
    fst (generateImages sampleNode sampleOptions worldOnePng) = Return paths.
Proof.
  refine (proj2 (proj2 (proj2
            (proj2 (proj2
               (generateImages_fails_without_image sampleNode sampleOptions
                  worldOnePng))
               (responseOf [imagePart pngBlob]) "/work/generated-images"
               eq_refl eq_refl eq_refl)))
            _ eq_refl eq_refl (fun _ _ => eq_refl)).
  discriminate.
Defined.

Lemma generateImages_one_path_per_image_witness :
  exists result d,
    gemini worldTwoImages 0 (requestOf sampleOptions) = Resolve result
    /\ outputDir sampleOptions = Some d
    /\ List.length (imagePartsOf result) = 2.
Proof.
  assert (H : generateImages sampleNode sampleOptions worldTwoImages
              = (Return
                   ["/work/generated-images/beach-party-1700000000000-1.png";
                    "/work/generated-images/beach-party-1700000000000-2.jpg"],
                 snd (generateImages sampleNode sampleOptions
                        worldTwoImages)))
    by (vm_compute; reflexivity).
  destruct (proj1 (generateImages_one_path_per_image sampleNode
                     sampleOptions worldTwoImages _ _ H))
    as [result [d [H1 [H2 [H3 _]]]]].
  exists result, d. split; [exact H1|]. split; [exact H2|].
  symmetry. exact H3.
Defined.

(* ================================================================= *)
(** ** Part III, continued: pairing engine *)

Section PairingProperties.
Import Conference.

Lemma removeAt_length {A} (l : list A) (j : nat) :
  j < List.length l -> List.length (removeAt j l) = List.length l - 1.
Proof.
  revert j. induction l as [|x l IH]; intros j Hj; [cbn in Hj; lia|].
  destruct j as [|j]; cbn in *; [lia|].
  rewrite IH by lia. lia.
Qed.

Lemma removeAt_perm {A} (l : list A) (j : nat) (x : A) :
  nth_error l j = Some x -> Permutation (x :: removeAt j l) l.
Proof.
  revert j. induction l as [|y l IH]; intros j Hj.
  - destruct j; discriminate Hj.
  - destruct j as [|j]; cbn in *.
    + injection Hj as ->. apply Permutation_refl.
    + apply perm_trans with (y :: x :: removeAt j l);
        [apply perm_swap | apply perm_skip, IH, Hj].
Qed.

(** The shuffle brings every remaining element out, each once. *)
Lemma shuffleFrom_perm {A} (rng : Rng) :
  forall n (l : list A) k,
    List.length l = n -> Permutation (shuffleFrom n l rng k) l.
Proof.
  induction n as [|n IH]; intros l k Hl.
  - destruct l; [apply perm_nil | discriminate Hl].
  - cbn [shuffleFrom].
    assert (Hj : Nat.modulo (rng k) (List.length l) < List.length l)
      by (apply Nat.mod_upper_bound; lia).
    destruct (nth_error l (Nat.modulo (rng k) (List.length l))) as [x|] eqn:Hx.
    + apply perm_trans with (x :: removeAt (Nat.modulo (rng k) (List.length l)) l).
      * apply perm_skip, IH. rewrite removeAt_length by exact Hj. lia.
      * apply removeAt_perm, Hx.
    + apply nth_error_None in Hx. lia.
Qed.

Lemma shuffle_perm {A} (l : list A) (rng : Rng) :
  Permutation (shuffle l rng) l.
Proof. apply shuffleFrom_perm. reflexivity. Qed.

(** C6. For a roster of six fighters and any random source, the draw
    succeeds; the pairing is made of the pairs at indices 0-1, 2-3 and 4-5
    of the shuffled roster, which is a permutation of the roster.  So the
    pairing has exactly 3 pairs, and their six members are the six fighters,
    each once: no fighter is left out, and when the fighters are distinct no
    fighter is in two pairs or twice in a pair. *)
Theorem draw_perfect_matching (fighters : list Fighter) (rng : Rng)
  (H6 : List.length fighters = 6) :
  exists f0 f1 f2 f3 f4 f5,
    shuffle fighters rng = [f0; f1; f2; f3; f4; f5]
    /\ Permutation [f0; f1; f2; f3; f4; f5] fighters
    /\ draw fighters rng = Ok [(f0, f1); (f2, f3); (f4, f5)]
    /\ List.length [(f0, f1); (f2, f3); (f4, f5)] = 3
    /\ members [(f0, f1); (f2, f3); (f4, f5)] = [f0; f1; f2; f3; f4; f5]
    /\ (forall f, In f fighters <-> In f [f0; f1; f2; f3; f4; f5])
    /\ (NoDup fighters -> NoDup [f0; f1; f2; f3; f4; f5]).
Proof.
  pose proof (shuffle_perm fighters rng) as Hperm.
  pose proof (Permutation_length Hperm) as Hlen. rewrite H6 in Hlen.
  destruct (shuffle fighters rng)
    as [|f0 [|f1 [|f2 [|f3 [|f4 [|f5 [|f6 rest]]]]]]] eqn:Hs;
    try discriminate Hlen.
  exists f0, f1, f2, f3, f4, f5.
  split; [reflexivity|].
  split; [exact Hperm|].
  split; [unfold draw; rewrite H6, Hs; reflexivity|].
  split; [reflexivity|].
  split; [reflexivity|].
  split.
  - intros f. split; intros Hf.
    + exact (Permutation_in f (Permutation_sym Hperm) Hf).
    + exact (Permutation_in f Hperm Hf).
  - intros Hnd. exact (Permutation_NoDup (Permutation_sym Hperm) Hnd).
Qed.

End PairingProperties.

Lemma draw_perfect_matching_witness :
  exists f0 f1 f2 f3 f4 f5,
    Conference.draw Conference.sampleRoster Conference.sampleRng
    = Conference.Ok [(f0, f1); (f2, f3); (f4, f5)].
Proof.
  destruct (draw_perfect_matching Conference.sampleRoster
              Conference.sampleRng eq_refl)
    as [f0 [f1 [f2 [f3 [f4 [f5 [_ [_ [H _]]]]]]]]].
  exists f0, f1, f2, f3, f4, f5. exact H.
Defined.

(* ================================================================= *)
(** ** Part III, continued: conference state machine *)

Section ConferenceProperties.
Import Conference.

Lemma updateAt_length {A} (l : list A) (i : nat) (x : A) :
  List.length (updateAt i x l) = List.length l.
Proof.
  revert i. induction l as [|y l IH]; intros [|i]; cbn; auto.
Qed.

Lemma nth_error_updateAt_same {A} (l : list A) (i : nat) (x : A) :
  i < List.length l -> nth_error (updateAt i x l) i = Some x.
Proof.
  revert i. induction l as [|y l IH]; intros [|i] Hi; cbn in *;
    try lia; [reflexivity | apply IH; lia].
Qed.

Lemma nth_error_updateAt_other {A} (l : list A) (i j : nat) (x : A) :
  i <> j -> nth_error (updateAt i x l) j = nth_error l j.
Proof.
  revert i j. induction l as [|y l IH]; intros [|i] [|j] Hij; cbn;
    try reflexivity; [contradiction | apply IH; lia].
Qed.

Lemma firstn_updateAt {A} (l : list A) (k : nat) (x : A) :
  firstn k (updateAt k x l) = firstn k l.
Proof.
  revert k. induction l as [|y l IH]; intros [|k]; cbn; try reflexivity.
  now rewrite IH.
Qed.

Lemma skipn_updateAt {A} (l : list A) (k : nat) (x : A) :
  k < List.length l ->
  skipn k (updateAt k x l) = x :: skipn (S k) l.
Proof.
  revert k. induction l as [|y l IH]; intros [|k] Hk; cbn in *; try lia.
  - reflexivity.
  - apply IH. lia.
Qed.

Lemma firstn_S_updateAt {A} (l : list A) (k : nat) (x : A) :
  k < List.length l ->
  firstn (S k) (updateAt k x l) = (firstn k l ++ [x])%list.
Proof.
  revert k. induction l as [|y l IH]; intros [|k] Hk; cbn in *; try lia.
  - reflexivity.
  - f_equal. apply IH. lia.
Qed.

Lemma skipn_S_updateAt {A} (l : list A) (k : nat) (x : A) :
  skipn (S k) (updateAt k x l) = skipn (S k) l.
Proof.
  revert k. induction l as [|y l IH]; intros [|k]; cbn; try reflexivity.
  apply IH.
Qed.

Lemma progress_inv (k : nat) (c : ConferenceState) :
  progress k c = true ->
  List.length c = 6
  /\ forallb isGenerated (firstn k c) = true
  /\ forallb (fun s => negb (isGenerated s)) (skipn k c) = true.
Proof.
  unfold progress. rewrite !andb_true_iff, Nat.eqb_eq. tauto.
Qed.

Lemma progress_intro (k : nat) (c : ConferenceState) :
  List.length c = 6 ->
  forallb isGenerated (firstn k c) = true ->
  forallb (fun s => negb (isGenerated s)) (skipn k c) = true ->
  progress k c = true.
Proof.
  intros H1 H2 H3. unfold progress. rewrite H1, H2, H3. reflexivity.
Qed.

(** Resolving slot [k] moves the progress on by one. *)
Lemma progress_resolved (k : nat) (c : ConferenceState) (slot : Slot) :
  progress k c = true -> k < 6 -> isGenerated slot = true ->
  progress (S k) (updateAt k slot c) = true.
Proof.
  intros Hp Hk Hg. apply progress_inv in Hp. destruct Hp as [Hl [Hf Hs]].
  apply progress_intro.
  - rewrite updateAt_length. exact Hl.
  - rewrite firstn_S_updateAt by lia. rewrite forallb_app, Hf. cbn.
    rewrite Hg. reflexivity.
  - rewrite skipn_S_updateAt.
    rewrite <- (firstn_skipn 1 (skipn k c)), forallb_app in Hs.
    apply andb_true_iff in Hs. destruct Hs as [_ Hs].
    rewrite skipn_skipn in Hs. exact Hs.
Qed.

(** A slot that fails stays the next one. *)
Lemma progress_failed (k : nat) (c : ConferenceState) (slot : Slot) :
  progress k c = true -> k < 6 -> isGenerated slot = false ->
  progress k (updateAt k slot c) = true.
Proof.
  intros Hp Hk Hg. apply progress_inv in Hp. destruct Hp as [Hl [Hf Hs]].
  apply progress_intro.
  - rewrite updateAt_length. exact Hl.
  - rewrite firstn_updateAt. exact Hf.
  - rewrite skipn_updateAt by lia. cbn. rewrite Hg. cbn.
    rewrite <- (firstn_skipn 1 (skipn k c)), forallb_app in Hs.
    apply andb_true_iff in Hs. destruct Hs as [_ Hs].
    rewrite skipn_skipn in Hs. exact Hs.
Qed.

Lemma nextIndexFrom_some (c : ConferenceState) :
  forall k i,
    k < List.length c ->
    forallb isGenerated (firstn k c) = true ->
    forallb (fun s => negb (isGenerated s)) (skipn k c) = true ->
    nextIndexFrom i c = Some (i + k).
Proof.
  induction c as [|s c IH]; intros k i Hk Hf Hs; [cbn in Hk; lia|].
  destruct k as [|k]; cbn in *.
  - apply andb_true_iff in Hs. destruct Hs as [Hs _].
    apply negb_true_iff in Hs. rewrite Hs. f_equal. lia.
  - apply andb_true_iff in Hf. destruct Hf as [Hg Hf]. rewrite Hg.
    rewrite (IH k (S i)); [f_equal; lia | lia | exact Hf | exact Hs].
Qed.

Lemma nextIndexFrom_none (c : ConferenceState) (i : nat) :
  forallb isGenerated c = true -> nextIndexFrom i c = None.
Proof.
  revert i. induction c as [|s c IH]; intros i Hf; [reflexivity|].
  cbn in *. apply andb_true_iff in Hf. destruct Hf as [Hg Hf].
  rewrite Hg. apply IH, Hf.
Qed.

Lemma progress_next (k : nat) (c : ConferenceState) :
  progress k c = true -> k < 6 -> nextIndex c = Some k.
Proof.
  intros Hp Hk. apply progress_inv in Hp. destruct Hp as [Hl [Hf Hs]].
  unfold nextIndex. rewrite (nextIndexFrom_some c k 0); auto. lia.
Qed.

Lemma progress_complete (c : ConferenceState) :
  progress 6 c = true -> nextIndex c = None.
Proof.
  intros Hp. apply progress_inv in Hp. destruct Hp as [Hl [Hf _]].
  apply nextIndexFrom_none. rewrite firstn_all2 in Hf by lia. exact Hf.
Qed.

Lemma conferenceAt_inv (s : Session) (p : PairId) (pr : Pair)
  (c : ConferenceState) :
  conferenceAt s p = Some (pr, c) ->
  exists prs,
    pairing s = Some prs
    /\ nth_error prs (pairIndex p) = Some pr
    /\ nth_error (conferences s) (pairIndex p) = Some c.
Proof.
  unfold conferenceAt. destruct (pairing s) as [prs|]; [|discriminate].
  destruct (nth_error prs (pairIndex p)) as [pr'|] eqn:Hpr; [|discriminate].
  destruct (nth_error (conferences s) (pairIndex p)) as [c'|] eqn:Hc;
    [|discriminate].
  intros H. injection H as -> ->. exists prs. auto.
Qed.

Lemma conferenceAt_withConference (s : Session) (p : PairId) (pr : Pair)
  (c c' : ConferenceState) :
  conferenceAt s p = Some (pr, c) ->
  conferenceAt (withConference s p c') p = Some (pr, c').
Proof.
  intros H. apply conferenceAt_inv in H. destruct H as [prs [Hp [Hpr Hc]]].
  unfold conferenceAt, withConference. cbn [pairing conferences].
  rewrite Hp, Hpr, nth_error_updateAt_same; [reflexivity|].
  apply nth_error_Some. rewrite Hc. discriminate.
Qed.

Lemma conferenceAt_withConference_other (s : Session) (p q : PairId)
  (c' : ConferenceState) :
  q <> p -> conferenceAt (withConference s p c') q = conferenceAt s q.
Proof.
  intros Hq. unfold conferenceAt, withConference. cbn [pairing conferences].
  rewrite nth_error_updateAt_other; [reflexivity|].
  destruct p, q; cbn; congruence.
Qed.

Section WithGateway.
Context {G : Type} (gw : Gateway G).

(** One call on a conference whose next slot is [k], when the text comes. *)
Lemma advance_generated (s : Session) (g g1 g2 : G) (p : PairId) (pr : Pair)
  (c : ConferenceState) (k : nat) (t : string)
  (img : Result string GenerationError) :
  conferenceAt s p = Some (pr, c) ->
  progress k c = true -> k < 6 ->
  let ctx := mkPromptContext (speakerAt pr k) (opponentAt pr k) (roundAt k) in
  generateText gw ctx g = (Ok t, g1) ->
  generateImage gw ctx (referenceAssets pr) g1 = (img, g2) ->
  let slot :=
    mkSlot (roundAt k) (speakerAt pr k) Generated
      (Some match img with
            | Ok bytes => mkArtifact t (Some bytes) false
            | Err _ => mkArtifact t None true
            end) in
  let c' := updateAt k slot c in
  advance gw p (s, g) = (Ok slot, (withConference s p c', g2))
  /\ conferenceAt (withConference s p c') p = Some (pr, c')
  /\ nth_error c' k = Some slot
  /\ progress (S k) c' = true.
Proof.
  intros Hconf Hk Hlt ctx Ht Hi slot c'.
  pose proof (conferenceAt_withConference s p pr c c' Hconf) as Hconf'.
  pose proof (progress_next k c Hk Hlt) as Hnext.
  pose proof (progress_inv k c Hk) as [Hlen _].
  apply conferenceAt_inv in Hconf. destruct Hconf as [prs [Hp [Hpr Hc]]].
  split; [|split; [exact Hconf'|split]].
  - unfold advance. rewrite Hp, Hpr, Hc, Hnext.
    fold ctx. rewrite Ht, Hi. reflexivity.
  - apply nth_error_updateAt_same. lia.
  - apply progress_resolved; auto.
Qed.

(** One call on a conference whose next slot is [k], when the text fails. *)
Lemma advance_text_failed (s : Session) (g g1 : G) (p : PairId) (pr : Pair)
  (c : ConferenceState) (k : nat) (e : GenerationError) :
  conferenceAt s p = Some (pr, c) ->
  progress k c = true -> k < 6 ->
  let ctx := mkPromptContext (speakerAt pr k) (opponentAt pr k) (roundAt k) in
  generateText gw ctx g = (Err e, g1) ->
  let slot := mkSlot (roundAt k) (speakerAt pr k) Failed None in
  let c' := updateAt k slot c in
  advance gw p (s, g)
  = (Err (TextGenerationFailed e), (withConference s p c', g1))
  /\ conferenceAt (withConference s p c') p = Some (pr, c')
  /\ progress k c' = true.
Proof.
  intros Hconf Hk Hlt ctx Ht slot c'.
  pose proof (conferenceAt_withConference s p pr c c' Hconf) as Hconf'.
  pose proof (progress_next k c Hk Hlt) as Hnext.
  apply conferenceAt_inv in Hconf. destruct Hconf as [prs [Hp [Hpr Hc]]].
  split; [|split; [exact Hconf'|]].
  - unfold advance. rewrite Hp, Hpr, Hc, Hnext.
    fold ctx. rewrite Ht. reflexivity.
  - apply progress_failed; auto.
Qed.

Lemma conferenceStatus_complete (c : ConferenceState) :
  conferenceStatus c = Complete -> nextIndex c = None.
Proof.
  unfold conferenceStatus. destruct (nextIndex c) as [[|i]|];
    [|discriminate|reflexivity].
  destruct c as [|slot c]; [discriminate|].
  destruct (status slot); discriminate.
Qed.

(** A call on a complete conference fails and changes nothing. *)
Lemma advance_complete (s : Session) (g : G) (p : PairId) (pr : Pair)
  (c : ConferenceState) :
  conferenceAt s p = Some (pr, c) ->
  nextIndex c = None ->
  advance gw p (s, g) = (Err ConferenceCompleteError, (s, g)).
Proof.
  intros Hconf Hnext.
  apply conferenceAt_inv in Hconf. destruct Hconf as [prs [Hp [Hpr Hc]]].
  unfold advance. rewrite Hp, Hpr, Hc, Hnext. reflexivity.
Qed.

Lemma advanceTimes_complete (s : Session) (g : G) (p : PairId) (pr : Pair)
  (c : ConferenceState) (n : nat) :
  conferenceAt s p = Some (pr, c) ->
  nextIndex c = None ->
  advanceTimes gw p n (s, g)
  = (repeat (Err ConferenceCompleteError) n, (s, g)).
Proof.
  intros Hconf Hk. induction n as [|n IH]; [reflexivity|].
  cbn [advanceTimes repeat].
  rewrite (advance_complete s g p pr c Hconf Hk), IH. reflexivity.
Qed.

Lemma inOrder_complete (pr : Pair) (n k : nat) :
  6 <= k -> inOrder pr k (repeat (Err ConferenceCompleteError) n).
Proof.
  revert k. induction n as [|n IH]; intros k Hk; cbn [inOrder repeat];
    [exact I|].
  assert (Hlt : Nat.ltb k 6 = false) by (apply Nat.ltb_ge; exact Hk).
  rewrite Hlt. split; [reflexivity | apply IH; lia].
Qed.

(** Successive calls without text failure resolve the slots in order. *)
Lemma advanceTimes_inOrder (p : PairId) (pr : Pair) (n : nat) :
  forall k s g c results st',
    k <= 6 ->
    conferenceAt s p = Some (pr, c) ->
    progress k c = true ->
    advanceTimes gw p n (s, g) = (results, st') ->
    existsb isTextFailure results = false ->
    inOrder pr k results
    /\ exists c',
        conferenceAt (fst st') p = Some (pr, c')
        /\ progress (Nat.min 6 (k + n)) c' = true.
Proof.
  induction n as [|n IH]; intros k s g c results st' Hk Hconf Hp Hrun Hok.
  - cbn in Hrun. injection Hrun as <- <-. split; [exact I|].
    exists c. rewrite Nat.add_0_r, Nat.min_r by exact Hk. auto.
  - destruct (Nat.eq_dec k 6) as [->|Hne].
    + rewrite (advanceTimes_complete s g p pr c (S n) Hconf
                 (progress_complete c Hp)) in Hrun.
      injection Hrun as <- <-.
      split; [exact (inOrder_complete pr (S n) 6 (le_n 6))|].
      exists c. rewrite Nat.min_l by lia. auto.
    + assert (Hlt : k < 6) by lia.
      cbn [advanceTimes] in Hrun.
      destruct (generateText gw
                  (mkPromptContext (speakerAt pr k) (opponentAt pr k)
                                   (roundAt k)) g) as [[t|e] g1] eqn:Ht.
      * destruct (generateImage gw
                    (mkPromptContext (speakerAt pr k) (opponentAt pr k)
                                     (roundAt k))
                    (referenceAssets pr) g1) as [img g2] eqn:Hi.
        destruct (advance_generated s g g1 g2 p pr c k t img
                    Hconf Hp Hlt Ht Hi) as [Hadv [Hconf' [_ Hp']]].
        rewrite Hadv in Hrun.
        destruct (advanceTimes gw p n _) as [rs st2] eqn:Hrest.
        injection Hrun as <- <-.
        cbn [existsb isTextFailure orb] in Hok.
        destruct (IH (S k) _ _ _ rs st2 Hlt Hconf' Hp' Hrest Hok)
          as [Hord [c2 [Hc2 Hp2]]].
        split.
        -- cbn [inOrder].
           assert (Hlt' : Nat.ltb k 6 = true) by (apply Nat.ltb_lt; exact Hlt).
           rewrite Hlt'. split; [eexists; reflexivity | exact Hord].
        -- exists c2. split; [exact Hc2|].
           replace (k + S n) with (S k + n) by lia. exact Hp2.
      * destruct (advance_text_failed s g g1 p pr c k e Hconf Hp Hlt Ht)
          as [Hadv _].
        rewrite Hadv in Hrun.
        destruct (advanceTimes gw p n _) as [rs st2].
        injection Hrun as <- <-. cbn in Hok. discriminate Hok.
Qed.

Lemma advanceTimes_length (p : PairId) (n : nat) (st : Session * G) :
  List.length (fst (advanceTimes gw p n st)) = n.
Proof.
  revert st. induction n as [|n IH]; intros st; [reflexivity|].
  cbn [advanceTimes]. destruct (advance gw p st) as [r st1].
  specialize (IH st1). destruct (advanceTimes gw p n st1) as [rs st2].
  cbn in *. now rewrite IH.
Qed.

(** C5. In a conference whose next slot is slot k, when the text of that slot
    is generated and the image generation returns an error, whichever it is,
    advance succeeds: the slot is recorded as Generated with the text, no
    image and usedFallback set; the pairing and the other conferences are
    untouched; slot k+1 becomes the next one, and the following calls resolve
    the remaining slots in order exactly as after any resolved slot. *)
Theorem image_failure_degrades_to_text (s : Session) (g g1 g2 : G)
  (p : PairId) (pr : Pair) (c : ConferenceState) (k : nat) (t : string)
  (e : GenerationError)
  (Hconf : conferenceAt s p = Some (pr, c))
  (Hk : progress k c = true)
  (Hlt : k < 6)
  (Htext : generateText gw
             (mkPromptContext (speakerAt pr k) (opponentAt pr k) (roundAt k))
             g = (Ok t, g1))
  (Himage : generateImage gw
              (mkPromptContext (speakerAt pr k) (opponentAt pr k) (roundAt k))
              (referenceAssets pr) g1 = (Err e, g2)) :
  let slot :=
    mkSlot (roundAt k) (speakerAt pr k) Generated
           (Some (mkArtifact t None true)) in
  exists s',
    advance gw p (s, g) = (Ok slot, (s', g2))
    /\ pairing s' = pairing s
    /\ (forall q, q <> p -> conferenceAt s' q = conferenceAt s q)
    /\ exists c',
        conferenceAt s' p = Some (pr, c')
        /\ nth_error c' k = Some slot
        /\ progress (S k) c' = true
        /\ (k < 5 -> nextIndex c' = Some (S k))
        /\ (forall n g' results st'',
               advanceTimes gw p n (s', g') = (results, st'') ->
               existsb isTextFailure results = false ->
               inOrder pr (S k) results).
Proof.
  intros slot.
  destruct (advance_generated s g g1 g2 p pr c k t (Err e)
              Hconf Hk Hlt Htext Himage) as [Hadv [Hconf' [Hnth Hp']]].
  eexists. split; [exact Hadv|].
  split; [reflexivity|].
  split; [intros q Hq; apply conferenceAt_withConference_other; exact Hq|].
  eexists. split; [exact Hconf'|].
  split; [exact Hnth|].
  split; [exact Hp'|].
  split; [intros Hk5; apply progress_next; [exact Hp' | lia]|].
  intros n g' results st'' Hrun Hok.
  exact (proj1 (advanceTimes_inOrder p pr n (S k) _ g' _ results st''
                  Hlt Hconf' Hp' Hrun Hok)).
Qed.

Lemma producedSlots_complete (n : nat) :
  producedSlots (repeat (Err ConferenceCompleteError) n) = [].
Proof. induction n as [|n IH]; [reflexivity | exact IH]. Qed.

(** Whatever the gateway does, the slots a run produces are the next ones,
    in order, and there are never more of them than remain. *)
Lemma advanceTimes_produced (p : PairId) (pr : Pair) (n : nat) :
  forall k s g c results st',
    k <= 6 ->
    conferenceAt s p = Some (pr, c) ->
    progress k c = true ->
    advanceTimes gw p n (s, g) = (results, st') ->
    map slotKey (producedSlots results)
    = schedule pr k (List.length (producedSlots results))
    /\ k + List.length (producedSlots results) <= 6.
Proof.
  induction n as [|n IH]; intros k s g c results st' Hk Hconf Hp Hrun.
  - cbn in Hrun. injection Hrun as <- <-. cbn. split; [reflexivity | lia].
  - destruct (Nat.eq_dec k 6) as [->|Hne].
    + rewrite (advanceTimes_complete s g p pr c (S n) Hconf
                 (progress_complete c Hp)) in Hrun.
      injection Hrun as <- <-.
      cbn [producedSlots]. rewrite (producedSlots_complete n).
      cbn. split; [reflexivity | lia].
    + assert (Hlt : k < 6) by lia.
      cbn [advanceTimes] in Hrun.
      destruct (generateText gw
                  (mkPromptContext (speakerAt pr k) (opponentAt pr k)
                                   (roundAt k)) g) as [[t|e] g1] eqn:Ht.
      * destruct (generateImage gw
                    (mkPromptContext (speakerAt pr k) (opponentAt pr k)
                                     (roundAt k))
                    (referenceAssets pr) g1) as [img g2] eqn:Hi.
        destruct (advance_generated s g g1 g2 p pr c k t img
                    Hconf Hp Hlt Ht Hi) as [Hadv [Hconf' [_ Hp']]].
        rewrite Hadv in Hrun.
        destruct (advanceTimes gw p n _) as [rs st2] eqn:Hrest.
        injection Hrun as <- <-.
        destruct (IH (S k) _ _ _ rs st2 Hlt Hconf' Hp' Hrest) as [Hmap Hle].
        cbn [producedSlots map List.length]. rewrite Hmap.
        split; [reflexivity | lia].
      * destruct (advance_text_failed s g g1 p pr c k e Hconf Hp Hlt Ht)
          as [Hadv [Hconf' Hp']].
        rewrite Hadv in Hrun.
        destruct (advanceTimes gw p n _) as [rs st2] eqn:Hrest.
        injection Hrun as <- <-.
        exact (IH k _ _ _ rs st2 Hk Hconf' Hp' Hrest).
Qed.

(** C7, as the specification has it. On a pair whose conference has no
    resolved slot yet, the slots that successive calls of advance produce
    come in strict order, with speakers A, B, A, B, A, B and rounds 0, 0, 1,
    1, 2, 2, and never more than six of them.  Six calls in a row produce
    the six slots when none of them fails on its text; a call whose text
    fails produces no slot and leaves its slot to the next call.  On a
    conference that is Complete, however it was reached, every call fails
    with ConferenceCompleteError and leaves the session and the gateway as
    they are: nothing is generated again. *)
Theorem advance_six_times (s : Session) (g : G) (p : PairId) (pr : Pair)
  (c : ConferenceState)
  (Hconf : conferenceAt s p = Some (pr, c))
  (Hfresh : progress 0 c = true) :
  (forall n results st',
      advanceTimes gw p n (s, g) = (results, st') ->
      exists m,
        m <= 6
        /\ map slotKey (producedSlots results)
           = firstn m [(0, fst pr, Generated); (0, snd pr, Generated);
                       (1, fst pr, Generated); (1, snd pr, Generated);
                       (2, fst pr, Generated); (2, snd pr, Generated)])
  /\ (forall results st',
        advanceTimes gw p 6 (s, g) = (results, st') ->
        existsb isTextFailure results = false ->
        (exists a0 a1 a2 a3 a4 a5,
            results
            = [Ok (mkSlot 0 (fst pr) Generated (Some a0));
               Ok (mkSlot 0 (snd pr) Generated (Some a1));
               Ok (mkSlot 1 (fst pr) Generated (Some a2));
               Ok (mkSlot 1 (snd pr) Generated (Some a3));
               Ok (mkSlot 2 (fst pr) Generated (Some a4));
               Ok (mkSlot 2 (snd pr) Generated (Some a5))])
        /\ (exists c',
              conferenceAt (fst st') p = Some (pr, c')
              /\ conferenceStatus c' = Complete)
        /\ (forall n,
              advanceTimes gw p n st'
              = (repeat (Err ConferenceCompleteError) n, st')))
  /\ (forall s0 g0 g1 pr0 c0 k e,
        conferenceAt s0 p = Some (pr0, c0) ->
        progress k c0 = true -> k < 6 ->
        generateText gw
          (mkPromptContext (speakerAt pr0 k) (opponentAt pr0 k) (roundAt k))
          g0 = (Err e, g1) ->
        exists s1 c1,
          advance gw p (s0, g0) = (Err (TextGenerationFailed e), (s1, g1))
          /\ conferenceAt s1 p = Some (pr0, c1)
          /\ progress k c1 = true
          /\ nextIndex c1 = Some k)
  /\ (forall s0 g0 pr0 c0 n,
        conferenceAt s0 p = Some (pr0, c0) ->
        conferenceStatus c0 = Complete ->
        advanceTimes gw p n (s0, g0)
        = (repeat (Err ConferenceCompleteError) n, (s0, g0))).
Proof.
  split; [|split; [|split]].
  - intros n results st' Hrun.
    destruct (advanceTimes_produced p pr n 0 s g c results st'
                (Nat.le_0_l 6) Hconf Hfresh Hrun) as [Hmap Hle].
    exists (List.length (producedSlots results)).
    split; [lia|]. rewrite Hmap. unfold schedule.
    generalize dependent (List.length (producedSlots results)).
    intros m _ Hm.
    do 7 (destruct m as [|m]; [reflexivity|]). cbn in Hm. lia.
  - intros results st' Hrun Htext.
    destruct (advanceTimes_inOrder p pr 6 0 s g c results st'
                (Nat.le_0_l 6) Hconf Hfresh Hrun Htext)
      as [Hord [c' [Hconf' Hp']]].
    pose proof (advanceTimes_length p 6 (s, g)) as Hlen.
    rewrite Hrun in Hlen. cbn [fst] in Hlen.
    split; [|split].
    + destruct results as [|r0 [|r1 [|r2 [|r3 [|r4 [|r5 [|r6 rest]]]]]]];
        try discriminate Hlen.
      cbn in Hord.
      destruct Hord
        as [[a0 ->] [[a1 ->] [[a2 ->] [[a3 ->] [[a4 ->] [[a5 ->] _]]]]]].
      exists a0, a1, a2, a3, a4, a5. reflexivity.
    + exists c'. split; [exact Hconf'|].
      unfold conferenceStatus. cbn in Hp'.
      rewrite (progress_complete c' Hp'). reflexivity.
    + intros n. destruct st' as [s' g']. cbn [fst] in Hconf'. cbn in Hp'.
      exact (advanceTimes_complete s' g' p pr c' n Hconf'
               (progress_complete c' Hp')).
  - intros s0 g0 g1 pr0 c0 k e Hconf0 Hk Hlt Htext.
    destruct (advance_text_failed s0 g0 g1 p pr0 c0 k e Hconf0 Hk Hlt Htext)
      as [Hadv [Hconf1 Hk1]].
    eexists. eexists. split; [exact Hadv|]. split; [exact Hconf1|].
    split; [exact Hk1|]. apply progress_next; assumption.
  - intros s0 g0 pr0 c0 n Hconf0 Hdone.
    exact (advanceTimes_complete s0 g0 p pr0 c0 n Hconf0
             (conferenceStatus_complete c0 Hdone)).
Qed.

End WithGateway.

End ConferenceProperties.

(** ** Part III, continued: generation gateway *)

Section GatewayProperties.
Import Conference.
Context {St : Type} (cap : Capabilities St).






End GatewayProperties.


(** *** Runs of the state machine on the sample session *)

(** The draw of the example of the specification. *)
Example draw_example :
  Conference.draw Conference.sampleRoster Conference.sampleRng
  = Conference.Ok
      [(Conference.fighter "petro", Conference.fighter "bohdan");
       (Conference.fighter "oleg", Conference.fighter "roma");
       (Conference.fighter "vadym", Conference.fighter "andrew_3")].
Proof. reflexivity. Qed.

(** The seventh call of the example fails, and the six before it give the
    speakers petro, bohdan, petro, bohdan, petro, bohdan. *)
Example conference_example :
  map (fun r => match r with
                | Conference.Ok slot =>
                    Some (Conference.code (Conference.speaker slot),
                          Conference.round slot)
                | Conference.Err _ => None
                end)
      (fst (Conference.advanceTimes Conference.textOnlyGateway
              Conference.Pair0 7 (Conference.drawnSession, 0)))
  = [Some ("petro", 0); Some ("bohdan", 0); Some ("petro", 1);
     Some ("bohdan", 1); Some ("petro", 2); Some ("bohdan", 2); None].
Proof. vm_compute. reflexivity. Qed.

Lemma image_failure_degrades_to_text_witness :
  exists s',
    Conference.advance Conference.textOnlyGateway Conference.Pair0
      (Conference.drawnSession, 0)
    = (Conference.Ok
         (Conference.mkSlot 0 (Conference.fighter "petro")
            Conference.Generated
            (Some (Conference.mkArtifact "Round 0: petro" None true))),
       (s', 2)).
Proof.
  destruct (image_failure_degrades_to_text Conference.textOnlyGateway
              Conference.drawnSession 0 1 2 Conference.Pair0
              (Conference.fighter "petro", Conference.fighter "bohdan")
              (Conference.initConference
                 (Conference.fighter "petro", Conference.fighter "bohdan"))
              0 "Round 0: petro"
              (Conference.mkGenerationError Conference.Refused)
              eq_refl eq_refl (Nat.lt_0_succ 5) eq_refl eq_refl)
    as [s' [H _]].
  exists s'. exact H.
Defined.

Lemma advance_six_times_witness :
  Conference.advanceTimes Conference.textOnlyGateway Conference.Pair0 2
    (snd (Conference.advanceTimes Conference.textOnlyGateway
            Conference.Pair0 6 (Conference.drawnSession, 0)))
  = ([Conference.Err Conference.ConferenceCompleteError;
      Conference.Err Conference.ConferenceCompleteError],
     snd (Conference.advanceTimes Conference.textOnlyGateway
            Conference.Pair0 6 (Conference.drawnSession, 0))).
Proof.
  exact (proj2 (proj2
           (proj1 (proj2
              (advance_six_times Conference.textOnlyGateway
                 Conference.drawnSession 0 Conference.Pair0
                 (Conference.fighter "petro", Conference.fighter "bohdan")
                 (Conference.initConference
                    (Conference.fighter "petro", Conference.fighter "bohdan"))
                 eq_refl eq_refl))
              (fst (Conference.advanceTimes Conference.textOnlyGateway
                      Conference.Pair0 6 (Conference.drawnSession, 0)))
              (snd (Conference.advanceTimes Conference.textOnlyGateway
                      Conference.Pair0 6 (Conference.drawnSession, 0)))
              eq_refl eq_refl)) 2).
Defined.

(** Six calls in a row do not always produce the six slots: with a gateway
    whose first text call times out, the first of six calls on the drawn
    pair fails, five slots are produced, and the conference is not
    complete. *)
Lemma advance_six_times_text_failure :
  let pr := (Conference.fighter "petro", Conference.fighter "bohdan") in
  let run :=
    Conference.advanceTimes Conference.slowStartGateway Conference.Pair0 6
      (Conference.drawnSession, 0) in
  Conference.conferenceAt Conference.drawnSession Conference.Pair0
  = Some (pr, Conference.initConference pr)
  /\ List.length (fst run) = 6
  /\ nth_error (fst run) 0
     = Some (Conference.Err
               (Conference.TextGenerationFailed
                  (Conference.mkGenerationError Conference.Transient)))
  /\ map Conference.slotKey (Conference.producedSlots (fst run))
     = [(0, fst pr, Conference.Generated); (0, snd pr, Conference.Generated);
        (1, fst pr, Conference.Generated); (1, snd pr, Conference.Generated);
        (2, fst pr, Conference.Generated)]
  /\ List.length (Conference.producedSlots (fst run)) <> 6
  /\ exists c',
      Conference.conferenceAt (fst (snd run)) Conference.Pair0
      = Some (pr, c')
      /\ Conference.conferenceStatus c' = Conference.InProgress.
Proof.
  cbv zeta. repeat split; try (vm_compute; reflexivity).
  - vm_compute. discriminate.
  - eexists. split; vm_compute; reflexivity.
Qed.

(** The first slot of the drawn pair, through a gateway with a bound of two
    attempts whose image capability times out once: two calls reach the
    image capability, both with the prompt and the four reference images of
    petro and bohdan. *)
Example gateway_retry_example :
  let gw := Conference.gatewayOf Conference.sampleCapabilities 2
              Conference.samplePrompt Conference.samplePrompt in
  let call :=
    Conference.mkImageCall "petro to bohdan, round 0"
      ["petro/owner.jpg"; "petro/image.png";
       "bohdan/owner.jpg"; "bohdan/image.png"] in
  snd (snd (snd (Conference.advance gw Conference.Pair0
                   (Conference.drawnSession, (0, [])))))
  = [call; call].
Proof. vm_compute. reflexivity. Qed.


(** With a gateway whose first text call times out, the first call fails and
    is made again on the same slot: the slots still come in order. *)
Example conference_retry_example :
  map (fun r => match r with
                | Conference.Ok slot =>
                    Some (Conference.code (Conference.speaker slot),
                          Conference.round slot)
                | Conference.Err _ => None
                end)
      (fst (Conference.advanceTimes Conference.slowStartGateway
              Conference.Pair0 7 (Conference.drawnSession, 0)))
  = [None; Some ("petro", 0); Some ("bohdan", 0); Some ("petro", 1);
     Some ("bohdan", 1); Some ("petro", 2); Some ("bohdan", 2)].
Proof. vm_compute. reflexivity. Qed.


(** *** Further runs of the tool *)

Example parseInt_examples :
  map (fun s => JS.parseInt (Some s))
      ["3"; " 42abc"; "-7"; "0x1F"; "abc"; ""; "-0"; "+5"; "2.7"; "1e3"]
  = map (option_map JS.Finite)
        [Some 3%Z; Some 42%Z; Some (-7)%Z; Some 31%Z; None; None; Some 0%Z;
         Some 5%Z; Some 2%Z; Some 1%Z]
  /\ JS.parseInt None = None.
Proof. split; reflexivity. Qed.

(** Above 2^53 the number read is the nearest double, ties to even. *)
Example parseInt_rounds :
  map (fun s => JS.parseInt (Some s))
      ["9007199254740992"; "9007199254740993"; "9007199254740995";
       "-9007199254740993"]
  = [Some (JS.Finite 9007199254740992); Some (JS.Finite 9007199254740992);
     Some (JS.Finite 9007199254740996);
     Some (JS.Finite (-9007199254740992))].
Proof. vm_compute. reflexivity. Qed.

Example clampCount_examples :
  map clampCount [Some "9"; Some "0"; Some "-3"; Some "many"; Some "3"; None;
                  Some "9007199254740993"]
  = [4%Z; 1%Z; 1%Z; 1%Z; 3%Z; 1%Z; 4%Z].
Proof. vm_compute. reflexivity. Qed.

(** A flag takes the next argument as its value, whatever it is: here the
    prompt is taken as the ratio, ignored, and then found missing. *)
Example parseArgs_prompt_taken_as_ratio :
  parseArgs sampleNode (worldOf ["--ratio"; "a cat"] (Some "key") onePng)
  = (Exit 1%Z,
     withConsole (worldOf ["--ratio"; "a cat"] (Some "key") onePng)
                 [(Stderr, "Error: Prompt is required")]).
Proof. reflexivity. Qed.

(** A whole run: one image comes back and is saved without suffix. *)
Example main_saves_one_image :
  let r := main sampleNode worldOnePng in
  fst r = Return tt
  /\ written (snd r)
     = [("/work/generated-images/beach-party-1700000000000.png",
         list_ascii_of_string "iVBORw0KGgo=")]
  /\ List.length (sent (snd r)) = 1.
Proof. vm_compute. repeat split; reflexivity. Qed.

(** --output given last, without a value, leaves the output directory
    undefined: the run then fails after the call to the model, although an
    image has come back. *)
Example main_output_without_value :
  let w := worldOf ["a cat"; "--output"] (Some "key") onePng in
  let r := main sampleNode w in
  fst r = Exit 1%Z
  /\ List.length (sent (snd r)) = 1
  /\ written (snd r) = []
  /\ In (Stderr, JS.nl ++ "❌ Error: " ++ errorText (invalidPathError))
        (console (snd r)).
Proof.
  vm_compute. repeat split; try reflexivity.
  right. right. right. right. left. reflexivity.
Qed.

(** A name in a subdirectory that is missing: the image comes back, the
    output directory is made, the write throws, and the run ends with
    status 1 and no file. *)
Example main_missing_subdirectory :
  let r := main sampleNode worldMissingSubdir in
  fst r = Exit 1%Z
  /\ List.length (sent (snd r)) = 1
  /\ existing (snd r) = ["/work/generated-images"]
  /\ written (snd r) = []
  /\ last (console (snd r)) (Stdout, "")
     = (Stderr, JS.nl ++ "❌ Error: " ++ errorText enoentError).
Proof. vm_compute. repeat split; reflexivity. Qed.

(** An output directory that cannot be made: the run fails with the error
    of the file system before the response is looked at. *)
Example main_no_directory :
  let r := main sampleNode worldNoDirectory in
  fst r = Exit 1%Z
  /\ fst (generateImages sampleNode sampleOptions worldNoDirectory)
     = Throw enotdirError
  /\ existing (snd r) = []
  /\ ~ In (Stdout, "I cannot create that image.") (console (snd r)).
Proof.
  vm_compute. repeat split; try reflexivity.
  intros H. repeat (destruct H as [H|H]; [discriminate H|]). exact H.
Qed.

(* ================================================================= *)
(** ** Part IV: further properties of generate-image.ts *)

(** *** Argument parsing *)

Section ParsingFurther.
Context (node : Node).

Lemma positional_not_flag (arg : string) :
  startsWith arg "--" = false -> takesValue arg = false.
Proof.
  intros H. unfold takesValue.
  destruct (String.eqb_spec arg "--count") as [->|_]; [discriminate H|].
  destruct (String.eqb_spec arg "--ratio") as [->|_]; [discriminate H|].
  destruct (String.eqb_spec arg "--output") as [->|_]; [discriminate H|].
  destruct (String.eqb_spec arg "--name") as [->|_]; [discriminate H|].
  reflexivity.
Qed.

Lemma takesValue_false (arg : string) :
  takesValue arg = false ->
  (arg =? "--count") = false /\ (arg =? "--ratio") = false
  /\ (arg =? "--output") = false /\ (arg =? "--name") = false.
Proof.
  unfold takesValue.
  destruct (arg =? "--count"), (arg =? "--ratio"), (arg =? "--output"),
    (arg =? "--name"); cbn; intros H; try discriminate H; auto.
Qed.

Lemma parseStep_positional (arg : string) (next : option string) (o : Options) :
  startsWith arg "--" = false ->
  parseStep arg next o = (setPrompt o arg, false).
Proof.
  intros H.
  destruct (takesValue_false arg (positional_not_flag arg H))
    as [H1 [H2 [H3 H4]]].
  unfold parseStep. rewrite H1, H2, H3, H4, H. reflexivity.
Qed.

Lemma parseStep_unknown (arg : string) (next : option string) (o : Options) :
  startsWith arg "--" = true -> takesValue arg = false ->
  parseStep arg next o = (o, false).
Proof.
  intros H Hv.
  destruct (takesValue_false arg Hv) as [H1 [H2 [H3 H4]]].
  unfold parseStep. rewrite H1, H2, H3, H4, H. reflexivity.
Qed.

(** What one pass of the loop body keeps related between two runs, the
    whole loop keeps related. *)
Lemma parseLoop_related (R : Options -> Options -> Prop) :
  (forall arg next o o',
      R o o' -> R (fst (parseStep arg next o)) (fst (parseStep arg next o'))) ->
  forall args o o', R o o' -> R (parseLoop args o) (parseLoop args o').
Proof.
  intros Hstep args.
  assert (H : forall n l, List.length l <= n ->
                          forall o o', R o o' ->
                                       R (parseLoop l o) (parseLoop l o')).
  { induction n as [|n IH]; intros l Hl o o' Ho.
    - destruct l; [exact Ho | simpl in Hl; lia].
    - destruct l as [|arg rest]; [exact Ho|].
      simpl in Hl. cbn [parseLoop].
      pose proof (Hstep arg (hd_error rest) o o' Ho) as Hs.
      pose proof (parseStep_stepped arg (hd_error rest) o) as H1.
      pose proof (parseStep_stepped arg (hd_error rest) o') as H2.
      destruct (parseStep arg (hd_error rest) o) as [o1 s1].
      destruct (parseStep arg (hd_error rest) o') as [o2 s2].
      cbn [fst snd] in *. subst s1 s2.
      destruct (takesValue arg).
      + destruct rest as [|v rest']; [exact Hs|].
        apply IH; [simpl in Hl; lia | exact Hs].
      + apply IH; [lia | exact Hs]. }
  intros o o' Ho. exact (H (List.length args) args (le_n _) o o' Ho).
Qed.

(** The prompt is the initial one, or an argument that does not start with
    two dashes. *)
Lemma parseLoop_prompt (args : list string) (o : Options) :
  prompt (parseLoop args o) = prompt o
  \/ (In (prompt (parseLoop args o)) args
      /\ startsWith (prompt (parseLoop args o)) "--" = false).
Proof.
  apply (parseLoop_preserves_on args
           (fun o' => prompt o' = prompt o
                      \/ (In (prompt o') args
                          /\ startsWith (prompt o') "--" = false)));
    [ | apply incl_refl | left; reflexivity ].
  intros arg next o' Harg _ Ho'. unfold parseStep.
  destruct (arg =? "--count"); [exact Ho'|].
  destruct (arg =? "--ratio").
  { cbn [fst]. destruct (arrayIncludes _ next); [destruct next|]; exact Ho'. }
  destruct (arg =? "--output"); [exact Ho'|].
  destruct (arg =? "--name"); [exact Ho'|].
  destruct (startsWith arg "--") eqn:Hs; cbn [negb fst]; [exact Ho'|].
  right. cbn [prompt setPrompt]. auto.
Qed.

(** Two runs of the loop from options that differ in the prompt only end in
    options that differ in the prompt only. *)
Lemma parseLoop_prompt_apart (args : list string) (o o' : Options) :
  (count o = count o' /\ aspectRatio o = aspectRatio o'
   /\ outputDir o = outputDir o' /\ name o = name o') ->
  count (parseLoop args o) = count (parseLoop args o')
  /\ aspectRatio (parseLoop args o) = aspectRatio (parseLoop args o')
  /\ outputDir (parseLoop args o) = outputDir (parseLoop args o')
  /\ name (parseLoop args o) = name (parseLoop args o').
Proof.
  apply (parseLoop_related
           (fun o o' => count o = count o' /\ aspectRatio o = aspectRatio o'
                        /\ outputDir o = outputDir o' /\ name o = name o')).
  clear. intros arg next o o' [H1 [H2 [H3 H4]]]. unfold parseStep.
  destruct (arg =? "--count"); [cbn; auto|].
  destruct (arg =? "--ratio").
  { cbn [fst]. destruct (arrayIncludes _ next); [destruct next|]; cbn; auto. }
  destruct (arg =? "--output"); [cbn; auto|].
  destruct (arg =? "--name"); [cbn; auto|].
  destruct (negb (startsWith arg "--")); cbn; auto.
Qed.

(** X1. The prompt that [parseArgs] returns is one of the arguments; it is
    not empty and does not start with two dashes. *)
Theorem parseArgs_prompt_is_argument (w w' : World) (o : Options)
  (H : parseArgs node w = (Return o, w')) :
  In (prompt o) (skipn 2 (argv w))
  /\ prompt o <> ""
  /\ startsWith (prompt o) "--" = false.
Proof.
  apply parseArgs_returns in H. destruct H as [Ho [_ [_ Hne]]].
  destruct (parseLoop_prompt (skipn 2 (argv w))
              (defaultOptions node (cwd w))) as [Hp|[Hin Hs]].
  - exfalso. apply Hne. rewrite Ho, Hp. reflexivity.
  - rewrite <- Ho in Hin, Hs. auto.
Qed.

(** X2. A flag that does not occur among the arguments leaves its default:
    count 1, ratio 16:9, the directory generated-images under the working
    directory, and the empty name. *)
Theorem parseArgs_defaults (w w' : World) (o : Options)
  (H : parseArgs node w = (Return o, w')) :
  (~ In "--count" (skipn 2 (argv w)) -> count o = 1%Z)
  /\ (~ In "--ratio" (skipn 2 (argv w)) -> aspectRatio o = "16:9")
  /\ (~ In "--output" (skipn 2 (argv w)) ->
      outputDir o = Some (path_join node (cwd w) "generated-images"))
  /\ (~ In "--name" (skipn 2 (argv w)) -> name o = Some "").
Proof.
  apply parseArgs_returns in H. destruct H as [Ho _]. subst o.
  repeat split; intros Hnot.
  - rewrite (parseLoop_keeps count "--count" parseStep_keeps_count _ _ Hnot).
    reflexivity.
  - rewrite (parseLoop_keeps aspectRatio "--ratio"
               parseStep_keeps_aspectRatio _ _ Hnot).
    reflexivity.
  - rewrite (parseLoop_keeps outputDir "--output"
               parseStep_keeps_outputDir _ _ Hnot).
    reflexivity.
  - rewrite (parseLoop_keeps name "--name" parseStep_keeps_name _ _ Hnot).
    reflexivity.
Qed.

(** X3. The value that follows a flag is what the options end with, unless
    the same flag occurs again later: the clamped count for --count, the
    ratio itself for --ratio when it is a valid one, and the value as it is
    for --output and --name. *)
Theorem parseLoop_flag_value_stored (pre rest : list string) (v : string)
  (o : Options) (Hpre : aligned pre) :
  (~ In "--count" rest ->
   count (parseLoop (pre ++ "--count" :: v :: rest) o) = clampCount (Some v))
  /\ (~ In "--ratio" rest -> In v VALID_ASPECT_RATIOS ->
      aspectRatio (parseLoop (pre ++ "--ratio" :: v :: rest) o) = v)
  /\ (~ In "--output" rest ->
      outputDir (parseLoop (pre ++ "--output" :: v :: rest) o) = Some v)
  /\ (~ In "--name" rest ->
      name (parseLoop (pre ++ "--name" :: v :: rest) o) = Some v).
Proof.
  repeat split.
  - intros Hnot. rewrite parseLoop_app by exact Hpre.
    cbn [parseLoop hd_error]. unfold parseStep at 1.
    cbn [String.eqb Ascii.eqb Bool.eqb].
    rewrite (parseLoop_keeps count "--count" parseStep_keeps_count _ _ Hnot).
    reflexivity.
  - intros Hnot Hv. rewrite parseLoop_app by exact Hpre.
    cbn [parseLoop hd_error]. unfold parseStep at 1.
    cbn [String.eqb Ascii.eqb Bool.eqb].
    apply arrayIncludes_In in Hv. rewrite Hv.
    rewrite (parseLoop_keeps aspectRatio "--ratio"
               parseStep_keeps_aspectRatio _ _ Hnot).
    reflexivity.
  - intros Hnot. rewrite parseLoop_app by exact Hpre.
    cbn [parseLoop hd_error]. unfold parseStep at 1.
    cbn [String.eqb Ascii.eqb Bool.eqb].
    rewrite (parseLoop_keeps outputDir "--output"
               parseStep_keeps_outputDir _ _ Hnot).
    reflexivity.
  - intros Hnot. rewrite parseLoop_app by exact Hpre.
    cbn [parseLoop hd_error]. unfold parseStep at 1.
    cbn [String.eqb Ascii.eqb Bool.eqb].
    rewrite (parseLoop_keeps name "--name" parseStep_keeps_name _ _ Hnot).
    reflexivity.
Qed.

(** X4. Only one prompt is kept: an argument taken as the prompt is
    forgotten as soon as a later argument is taken as the prompt, and the
    options are those of the arguments without the earlier one. *)
Theorem parseLoop_earlier_prompt_forgotten (pre mid rest : list string)
  (a b : string) (o : Options)
  (Hpre : aligned pre) (Hmid : aligned mid)
  (Ha : startsWith a "--" = false) (Hb : startsWith b "--" = false) :
  parseLoop (pre ++ a :: mid ++ b :: rest) o
  = parseLoop (pre ++ mid ++ b :: rest) o.
Proof.
  rewrite !parseLoop_app by exact Hpre.
  cbn [parseLoop]. rewrite (parseStep_positional a _ _ Ha).
  rewrite !parseLoop_app by exact Hmid.
  cbn [parseLoop]. rewrite !(parseStep_positional b _ _ Hb).
  apply (f_equal (parseLoop rest)).
  destruct (parseLoop_prompt_apart mid (setPrompt (parseLoop pre o) a)
              (parseLoop pre o)) as [H1 [H2 [H3 H4]]];
    [cbn; auto|].
  set (x := parseLoop mid (setPrompt (parseLoop pre o) a)) in *.
  set (y := parseLoop mid (parseLoop pre o)) in *.
  unfold setPrompt. rewrite H1, H2, H3, H4. reflexivity.
Qed.

(** X5. An argument that starts with two dashes and is none of --count,
    --ratio, --output and --name is skipped, alone: the options are those of
    the arguments without it, and the argument after it is read as usual. *)
Theorem parseLoop_unknown_flag_ignored (pre rest : list string)
  (arg : string) (o : Options)
  (Hpre : aligned pre)
  (Hdash : startsWith arg "--" = true)
  (Hunknown : takesValue arg = false) :
  parseLoop (pre ++ arg :: rest) o = parseLoop (pre ++ rest) o.
Proof.
  rewrite !parseLoop_app by exact Hpre.
  cbn [parseLoop]. rewrite (parseStep_unknown arg _ _ Hdash Hunknown).
  reflexivity.
Qed.

End ParsingFurther.

Lemma parseArgs_prompt_is_argument_witness :
  In "a cat" ["a cat"; "--count"; "9"].
Proof.
  exact (proj1 (parseArgs_prompt_is_argument sampleNode worldCountNine
                  worldCountNine _ eq_refl)).
Defined.

Lemma parseArgs_defaults_witness :
  aspectRatio (parseLoop ["a cat"; "--count"; "9"]
                         (defaultOptions sampleNode "/work")) = "16:9".
Proof.
  refine (proj1 (proj2 (parseArgs_defaults sampleNode worldCountNine
                          worldCountNine _ eq_refl)) _).
  cbn. intros [H|[H|[H|[]]]]; discriminate H.
Defined.

Lemma parseLoop_flag_value_stored_witness :
  name (parseLoop ["a cat"; "--name"; "hero"; "--count"; "2"]
                  (defaultOptions sampleNode "/work")) = Some "hero".
Proof.
  refine (proj2 (proj2 (proj2
            (parseLoop_flag_value_stored ["a cat"] ["--count"; "2"] "hero"
               (defaultOptions sampleNode "/work")
               (aligned_plain "a cat" [] eq_refl aligned_nil)))) _).
  cbn. intros [H|[H|[]]]; discriminate H.
Defined.

Lemma parseLoop_earlier_prompt_forgotten_witness :
  parseLoop ["a"; "--count"; "2"; "cat"] (defaultOptions sampleNode "/work")
  = parseLoop ["--count"; "2"; "cat"] (defaultOptions sampleNode "/work").
Proof.
  exact (parseLoop_earlier_prompt_forgotten [] ["--count"; "2"] [] "a" "cat"
           (defaultOptions sampleNode "/work")
           aligned_nil
           (aligned_value "--count" "2" [] eq_refl aligned_nil)
           eq_refl eq_refl).
Defined.

Lemma parseLoop_unknown_flag_ignored_witness :
  parseLoop ["a cat"; "--size"; "large"] (defaultOptions sampleNode "/work")
  = parseLoop ["a cat"; "large"] (defaultOptions sampleNode "/work").
Proof.
  exact (parseLoop_unknown_flag_ignored ["a cat"] ["large"] "--size"
           (defaultOptions sampleNode "/work")
           (aligned_plain "a cat" [] eq_refl aligned_nil)
           eq_refl eq_refl).
Defined.


(** *** The whole program *)

Section ProgramFurther.
Context (node : Node).

(** When [generateImages] returns: the key is set, the call resolves, the
    output directory is given and was there or could be made, and the
    response has image parts, each with its data. *)
Lemma generateImages_returns (o : Options) (w : World)
  (paths : list string) :
  fst (generateImages node o w) = Return paths ->
  truthy (env_GEMINI_API_KEY w) = true
  /\ sent (snd (generateImages node o w)) = app (sent w) [requestOf o]
  /\ exists result d,
      gemini w (List.length (sent w)) (requestOf o) = Resolve result
      /\ outputDir o = Some d
      /\ imagePartsOf result <> []
      /\ forallb hasData (imagePartsOf result) = true
      /\ (existsb (String.eqb (path_resolve node (cwd w) d)) (existing w)
          = false ->
          fsMkdir w (existing w) (path_resolve node (cwd w) d) = None)
      /\ paths = pathsFrom node o (path_resolve node (cwd w) d) (clock w)
                   (List.length (imagePartsOf result)) 0
                   (imagePartsOf result)
      /\ written (snd (generateImages node o w))
         = app (written w)
               (filesFrom node o (path_resolve node (cwd w) d) (clock w)
                  (List.length (imagePartsOf result)) 0
                  (imagePartsOf result)).
Proof.
  intros Hret.
  pose proof (generateImages_spec node o w) as Hs. cbv zeta in Hs.
  destruct (truthy (env_GEMINI_API_KEY w)); cbn [negb] in Hs;
    [|rewrite Hs in Hret; discriminate Hret].
  destruct Hs as [Hsent Hs].
  split; [reflexivity|]. split; [exact Hsent|].
  destruct (gemini w (List.length (sent w)) (requestOf o)) as [result|e];
    [|destruct Hs as [Hs _]; congruence].
  destruct (outputDir o) as [d|]; [|destruct Hs as [Hs _]; congruence].
  exists result, d. split; [reflexivity|]. split; [reflexivity|].
  destruct (existsb (String.eqb (path_resolve node (cwd w) d)) (existing w));
    [|destruct (fsMkdir w (existing w) (path_resolve node (cwd w) d));
      [destruct Hs as [Hs _]; congruence|]].
  all: destruct (imagePartsOf result) as [|p ips];
    [destruct Hs as [Hs _]; congruence|].
  all: rewrite Hret in Hs; destruct Hs as [Hpaths [Hw [_ Hall]]].
  all: split; [discriminate|]; split; [exact Hall|]; split; auto.
  intros H; discriminate H.
Qed.

(** [generateImages] does return when, besides, the file system does not
    fail. *)
Lemma generateImages_returns_when (o : Options) (w : World)
  (result : Response) (d : string) :
  truthy (env_GEMINI_API_KEY w) = true ->
  gemini w (List.length (sent w)) (requestOf o) = Resolve result ->
  outputDir o = Some d ->
  imagePartsOf result <> [] ->
  forallb hasData (imagePartsOf result) = true ->
  (forall files p, fsMkdir w files p = None) ->
  (forall files p, fsWrite w files p = None) ->
  exists paths, fst (generateImages node o w) = Return paths.
Proof.
  intros Hkey Hres Hd Hne Hall Hmk Hwr.
  pose proof (generateImages_spec node o w) as Hs. cbv zeta in Hs.
  rewrite Hkey in Hs. cbn [negb] in Hs. destruct Hs as [_ Hs].
  rewrite Hres, Hd, Hmk in Hs.
  assert (Hdir : (if existsb (String.eqb (path_resolve node (cwd w) d))
                             (existing w)
                  then @None Thrown else None) = None)
    by (destruct (existsb _ _); reflexivity).
  rewrite Hdir in Hs.
  destruct (imagePartsOf result) as [|p ips]; [contradiction|].
  destruct (fst (generateImages node o w)) as [paths|e|c].
  - exists paths. reflexivity.
  - destruct Hs as [k [part [Hk [_ [_ [[Hno _]|[_ Hfail]]]]]]].
    + rewrite forallb_forall in Hall.
      rewrite (Hall part (nth_error_In _ _ Hk)) in Hno. discriminate Hno.
    + rewrite Hwr in Hfail. discriminate Hfail.
  - destruct Hs.
Qed.

(** [main], by the outcome of its two steps. *)
Lemma main_cases (w : World) :
  match parseArgs node w with
  | (Return o, w1) =>
      match generateImages node o w1 with
      | (Return paths, w2) =>
          main node w
          = (Return tt,
             withConsole w2
               (app (console w2)
                    [(Stdout, nl ++ "✨ Success! Generated "
                              ++ showNat (List.length paths) ++ " image(s)")]))
      | (Throw e, w2) =>
          main node w
          = (Exit 1%Z,
             withConsole w2
               (app (console w2)
                    ((Stderr, nl ++ "❌ Error: " ++ errorText e)
                     :: (if mentionsKey e
                         then [(Stderr,
                                nl ++ "💡 Create .env file with: GEMINI_API_KEY=your_key_here");
                               (Stderr,
                                "   Get key at: https://aistudio.google.com/apikey")]
                         else []))))
      | (Exit c, w2) => main node w = (Exit c, w2)
      end
  | (Throw e, w1) => True
  | (Exit c, w1) => main node w = (Exit c, w1)
  end.
Proof.
  destruct (parseArgs node w) as [[o| |c] w1] eqn:Hp; [|exact I|].
  - destruct (generateImages node o w1) as [[paths|e|c] w2] eqn:Hg;
      unfold main, tryCatch, bind; rewrite Hp, Hg.
    + unfold console_log. reflexivity.
    + unfold console_error, when, process_exit, ret.
      destruct (mentionsKey e); cbn -[String.append];
        rewrite <- ?app_assoc; reflexivity.
    + reflexivity.
  - unfold main, tryCatch, bind. rewrite Hp. reflexivity.
Qed.

(** The two ways [parseArgs] leaves the process, with the line it prints. *)
Lemma parseArgs_exits (w : World) :
  let args := skipn 2 (argv w) in
  (args = [] ->
   parseArgs node w
   = (Exit 1%Z,
      withConsole w
        (app (console w)
             [(Stderr, "Usage: npx tsx generate-image.ts " ++ dq
                       ++ "your prompt" ++ dq ++ " [options]")])))
  /\ (args <> [] ->
      prompt (parseLoop args (defaultOptions node (cwd w))) = "" ->
      parseArgs node w
      = (Exit 1%Z,
         withConsole w
           (app (console w) [(Stderr, "Error: Prompt is required")])))
  /\ (args <> [] ->
      prompt (parseLoop args (defaultOptions node (cwd w))) <> "" ->
      parseArgs node w
      = (Return (parseLoop args (defaultOptions node (cwd w))), w)).
Proof.
  unfold parseArgs, bind, process_argv, process_cwd, when, ret,
    console_error, process_exit.
  destruct (skipn 2 (argv w)) as [|a l] eqn:Hargs; cbn -[parseLoop].
  - split; [intros _; reflexivity|].
    split; intros Hne; exfalso; apply Hne; reflexivity.
  - set (o' := parseLoop (a :: l) (defaultOptions node (cwd w))).
    destruct (prompt o') eqn:Hp; cbn -[parseLoop].
    + split; [intros E; discriminate E|].
      split; [intros _ _; reflexivity|].
      intros _ Hne. exfalso. apply Hne. reflexivity.
    + split; [intros E; discriminate E|].
      split; [intros _ E; discriminate E|].
      intros _ _. reflexivity.
Qed.

(** X6. [main] never lets an exception escape: it either returns, or leaves
    the process with status 1.  It calls the model at most once. *)
Theorem main_exit_status (w : World) :
  (fst (main node w) = Return tt \/ fst (main node w) = Exit 1%Z)
  /\ (forall e, fst (main node w) <> Throw e)
  /\ List.length (sent (snd (main node w))) <= List.length (sent w) + 1.
Proof.
  assert (H : (fst (main node w) = Return tt \/ fst (main node w) = Exit 1%Z)
              /\ List.length (sent (snd (main node w)))
                 <= List.length (sent w) + 1).
  { pose proof (main_cases w) as Hm.
    destruct (parseArgs_outcomes node w) as [[o Hp]|[line [Hp _]]];
      rewrite Hp in Hm.
    - pose proof (generateImages_sent node o w) as Hsent.
      pose proof (generateImages_no_exit node o w) as Hne.
      destruct (generateImages node o w) as [[paths|e|c] w2];
        cbn [fst snd] in *.
      + rewrite Hm. cbn [fst snd sent withConsole]. split; [left; reflexivity|].
        rewrite Hsent. destruct (truthy _); [rewrite length_app; cbn|]; lia.
      + rewrite Hm. cbn [fst snd sent withConsole]. split; [right; reflexivity|].
        rewrite Hsent. destruct (truthy _); [rewrite length_app; cbn|]; lia.
      + exfalso. exact (Hne c eq_refl).
    - rewrite Hm. cbn. split; [right; reflexivity | lia]. }
  destruct H as [H1 H2]. split; [exact H1|]. split; [|exact H2].
  intros e He. destruct H1 as [H1|H1]; rewrite H1 in He; discriminate He.
Qed.

(** X7. [main] returns only if there are arguments, one of them is taken as
    the prompt, GEMINI_API_KEY is set, the output directory is given and was
    there or could be made, and the one call to the model resolves with a
    response that has image parts, each with its data.  It does return when,
    besides, the file system does not fail.  When it returns it has written
    one file per image part, sent one request, and its last line of output
    tells the number of image parts. *)
Theorem main_success_conditions (w : World) :
  let args := skipn 2 (argv w) in
  let o := parseLoop args (defaultOptions node (cwd w)) in
  (fst (main node w) = Return tt ->
   args <> [] /\ prompt o <> ""
   /\ truthy (env_GEMINI_API_KEY w) = true
   /\ exists result d,
       gemini w (List.length (sent w)) (requestOf o) = Resolve result
       /\ outputDir o = Some d
       /\ imagePartsOf result <> []
       /\ forallb hasData (imagePartsOf result) = true
       /\ (existsb (String.eqb (path_resolve node (cwd w) d)) (existing w)
           = false ->
           fsMkdir w (existing w) (path_resolve node (cwd w) d) = None))
  /\ (forall result d,
        args <> [] -> prompt o <> "" ->
        truthy (env_GEMINI_API_KEY w) = true ->
        gemini w (List.length (sent w)) (requestOf o) = Resolve result ->
        outputDir o = Some d ->
        imagePartsOf result <> [] ->
        forallb hasData (imagePartsOf result) = true ->
        (forall files p, fsMkdir w files p = None) ->
        (forall files p, fsWrite w files p = None) ->
        fst (main node w) = Return tt)
  /\ (forall result d,
        fst (main node w) = Return tt ->
        gemini w (List.length (sent w)) (requestOf o) = Resolve result ->
        outputDir o = Some d ->
        let imageParts := imagePartsOf result in
        written (snd (main node w))
        = app (written w)
              (filesFrom node o (path_resolve node (cwd w) d) (clock w)
                         (List.length imageParts) 0 imageParts)
        /\ sent (snd (main node w)) = app (sent w) [requestOf o]
        /\ last (console (snd (main node w))) (Stdout, "")
           = (Stdout, nl ++ "✨ Success! Generated "
                      ++ showNat (List.length imageParts) ++ " image(s)")).
Proof.
  intros args o. subst args o.
  set (args := skipn 2 (argv w)).
  set (o := parseLoop args (defaultOptions node (cwd w))).
  pose proof (main_cases w) as Hm.
  destruct (parseArgs_exits w) as [Hempty [Hnoprompt Hok]].
  fold args in Hempty, Hnoprompt, Hok. fold o in Hnoprompt, Hok.
  destruct (list_eq_dec string_dec args []) as [Ha|Ha].
  { rewrite (Hempty Ha) in Hm. rewrite Hm. cbn [fst].
    split; [discriminate|]. split.
    - intros result d Hne. contradiction.
    - intros result d H. discriminate H. }
  destruct (string_dec (prompt o) "") as [Hp|Hp].
  { rewrite (Hnoprompt Ha Hp) in Hm. rewrite Hm. cbn [fst].
    split; [discriminate|]. split.
    - intros result d _ Hne. contradiction.
    - intros result d H. discriminate H. }
  rewrite (Hok Ha Hp) in Hm.
  pose proof (generateImages_returns o w) as Hret.
  pose proof (generateImages_returns_when o w) as Hwhen.
  pose proof (generateImages_no_exit node o w) as Hne.
  destruct (generateImages node o w) as [[paths|e|c] w2] eqn:Hg;
    cbn [fst snd] in *.
  - rewrite Hm. cbn [fst snd].
    destruct (Hret paths eq_refl)
      as [Hkey [Hsent [result [d [Hres [Hd [Hparts [Hall [Hmk [Hpaths Hw]]]]]]]]]].
    split; [|split].
    + intros _. split; [exact Ha|]. split; [exact Hp|].
      split; [exact Hkey|]. exists result, d. auto.
    + reflexivity.
    + intros result' d' _ Hres' Hd'.
      assert (Hr : result' = result) by congruence.
      assert (Hdd : d' = d) by congruence.
      subst result' d'.
      cbn [written sent console withConsole].
      split; [exact Hw|]. split; [exact Hsent|].
      rewrite last_last, Hpaths, pathsFrom_length. reflexivity.
  - rewrite Hm. cbn [fst]. split; [discriminate|]. split.
    + intros result d _ _ Hkey Hres Hd Hparts Hall Hmk Hwr.
      destruct (Hwhen result d Hkey Hres Hd Hparts Hall Hmk Hwr)
        as [paths Hpaths].
      discriminate Hpaths.
    + intros result d H. discriminate H.
  - exfalso. exact (Hne c eq_refl).
Qed.

(** X8. Without arguments, or when no argument is taken as the prompt, [main]
    prints one line on the error stream (the usage, or that the prompt is
    required) and leaves with status 1; the key is not looked at, the model
    is not called and nothing is written. *)
Theorem main_rejects_missing_prompt (w : World)
  (H : skipn 2 (argv w) = []
       \/ prompt (parseLoop (skipn 2 (argv w))
                            (defaultOptions node (cwd w))) = "") :
  exists line,
    main node w
    = (Exit 1%Z, withConsole w (app (console w) [(Stderr, line)]))
    /\ (skipn 2 (argv w) = [] ->
        line = "Usage: npx tsx generate-image.ts " ++ dq ++ "your prompt"
               ++ dq ++ " [options]")
    /\ (skipn 2 (argv w) <> [] -> line = "Error: Prompt is required")
    /\ sent (snd (main node w)) = sent w
    /\ written (snd (main node w)) = written w
    /\ existing (snd (main node w)) = existing w.
Proof.
  pose proof (main_cases w) as Hm.
  destruct (parseArgs_exits w) as [Hempty [Hnoprompt _]].
  destruct (list_eq_dec string_dec (skipn 2 (argv w)) []) as [Ha|Ha].
  - rewrite (Hempty Ha) in Hm. eexists. rewrite Hm.
    split; [reflexivity|]. cbn. repeat split; auto. contradiction.
  - destruct H as [H|H]; [contradiction|].
    rewrite (Hnoprompt Ha H) in Hm. eexists. rewrite Hm.
    split; [reflexivity|]. cbn. repeat split; auto. contradiction.
Qed.

(** X9. When [generateImages] throws, [main] prints the message of the error
    (or the error itself when it is not an Error) on the error stream,
    follows it with the two lines of advice about the .env file exactly when
    the error is an Error whose message mentions GEMINI_API_KEY, and leaves
    with status 1.  Without the key that is all a run does. *)
Theorem main_failure_report (w w2 : World) (o : Options) (e : Thrown)
  (Hparse : parseArgs node w = (Return o, w))
  (Hthrow : generateImages node o w = (Throw e, w2)) :
  main node w
  = (Exit 1%Z,
     withConsole w2
       (app (console w2)
            ((Stderr, nl ++ "❌ Error: " ++ errorText e)
             :: (if mentionsKey e
                 then [(Stderr,
                        nl ++ "💡 Create .env file with: GEMINI_API_KEY=your_key_here");
                       (Stderr,
                        "   Get key at: https://aistudio.google.com/apikey")]
                 else []))))
  /\ (mentionsKey e = true
      <-> exists ctor message,
          e = JsError ctor message
          /\ includes message "GEMINI_API_KEY" = true)
  /\ (truthy (env_GEMINI_API_KEY w) = false ->
      w2 = w /\ e = missingKeyError /\ mentionsKey e = true).
Proof.
  pose proof (main_cases w) as Hm. rewrite Hparse, Hthrow in Hm.
  split; [exact Hm|]. split.
  - destruct e as [ctor message|repr]; cbn [mentionsKey]; split.
    + intros Hi. exists ctor, message. auto.
    + intros [c [m [E Hi]]]. injection E as -> ->. exact Hi.
    + discriminate.
    + intros [c [m [E _]]]. discriminate E.
  - intros Hkey.
    pose proof (generateImages_spec node o w) as Hs. cbv zeta in Hs.
    rewrite Hkey in Hs. cbn [negb] in Hs. rewrite Hthrow in Hs.
    injection Hs as -> ->. auto.
Qed.

End ProgramFurther.

Lemma main_success_conditions_witness :
  fst (main sampleNode worldOnePng) = Return tt.
Proof.
  refine (proj1 (proj2 (main_success_conditions sampleNode worldOnePng))
            (responseOf [imagePart pngBlob]) "/work/generated-images"
            _ _ eq_refl eq_refl eq_refl _ eq_refl
            (fun _ _ => eq_refl) (fun _ _ => eq_refl));
    discriminate.
Defined.

Lemma main_rejects_missing_prompt_witness :
  exists line,
    main sampleNode (worldOf [] None onePng)
    = (Exit 1%Z,
       withConsole (worldOf [] None onePng) [(Stderr, line)]).
Proof.
  destruct (main_rejects_missing_prompt sampleNode (worldOf [] None onePng)
              (or_introl eq_refl)) as [line [H _]].
  exists line. exact H.
Defined.

Lemma main_failure_report_witness :
  main sampleNode worldNoKey
  = (Exit 1%Z,
     withConsole worldNoKey
       [(Stderr, nl ++ "❌ Error: GEMINI_API_KEY not found in .env file");
        (Stderr,
         nl ++ "💡 Create .env file with: GEMINI_API_KEY=your_key_here");
        (Stderr, "   Get key at: https://aistudio.google.com/apikey")]).
Proof.
  exact (proj1 (main_failure_report sampleNode worldNoKey worldNoKey
                  sampleOptions missingKeyError eq_refl eq_refl)).
Defined.

(** *** Directories and files *)

Section FilesFurther.
Context (node : Node).


(** X11. When --output is the last argument it has no value, and the output
    directory is left undefined.  A run with such options and the key set
    still calls the model, once, and then always fails: with what the call
    was rejected with, or else with the TypeError of [path.resolve]; it
    writes nothing and makes no directory, whatever came back. *)
Theorem output_flag_without_value (o : Options) (w : World) :
  (forall pre o0,
      aligned pre ->
      parseLoop (pre ++ ["--output"]) o0
      = setOutputDir (parseLoop pre o0) None)
  /\ (outputDir o = None ->
      truthy (env_GEMINI_API_KEY w) = true ->
      let r := generateImages node o w in
      (fst r = Throw invalidPathError
       \/ exists e,
           gemini w (List.length (sent w)) (requestOf o) = Reject e
           /\ fst r = Throw e)
      /\ sent (snd r) = app (sent w) [requestOf o]
      /\ written (snd r) = written w
      /\ existing (snd r) = existing w).
Proof.
  split.
  - intros pre o0 Hpre. rewrite parseLoop_app by exact Hpre. reflexivity.
  - intros Hd Hkey r. subst r.
    pose proof (generateImages_spec node o w) as Hs. cbv zeta in Hs.
    rewrite Hkey in Hs. cbn [negb] in Hs.
    destruct Hs as [Hsent Hs].
    destruct (gemini w (List.length (sent w)) (requestOf o)) as [result|e].
    + rewrite Hd in Hs. destruct Hs as [Hthrow [Hw Hex]]. auto.
    + destruct Hs as [Hthrow [Hw Hex]].
      split; [right; exists e; auto|]. auto.
Qed.

End FilesFurther.


Lemma output_flag_without_value_witness :
  written (snd (generateImages sampleNode
                  (setOutputDir sampleOptions None) worldOnePng)) = [].
Proof.
  exact (proj1 (proj2 (proj2
           (proj2 (output_flag_without_value sampleNode
                     (setOutputDir sampleOptions None) worldOnePng)
                  eq_refl eq_refl)))).
Defined.

(** *** Counts written in decimal *)

Section DecimalCounts.

Ltac eval_digit :=
  match goal with
  | |- context [digitValue ?c] =>
      let v := eval vm_compute in (digitValue c) in
      change (digitValue c) with v
  end;
  cbv beta iota;
  match goal with
  | |- context [Z.ltb ?k 10] =>
      let b := eval vm_compute in (Z.ltb k 10) in
      change (Z.ltb k 10) with b
  end;
  cbv beta iota.

Lemma string_of_uint_digits (d : Decimal.uint) :
  digitsOnly (NilEmpty.string_of_uint d) = true.
Proof. induction d; cbn; auto. Qed.

Lemma showNat_digits (n : nat) :
  digitsOnly (showNat n) = true /\ showNat n <> "".
Proof.
  unfold showNat, NilZero.string_of_uint.
  destruct (Nat.to_uint n) as [|d|d|d|d|d|d|d|d|d|d]; cbn;
    rewrite ?string_of_uint_digits; split; auto; discriminate.
Qed.

(** Reading the digits of a decimal numeral gives back its value. *)
Lemma parseDigits_uint (d : Decimal.uint) :
  forall acc,
    parseDigits 10 (NilEmpty.string_of_uint d) (Some (Z.of_nat acc))
    = Some (Z.of_nat (Nat.of_uint_acc d acc)).
Proof.
  induction d; intros acc; cbn [NilEmpty.string_of_uint Nat.of_uint_acc];
    [reflexivity| | | | | | | | | |];
    cbn [parseDigits]; eval_digit;
    rewrite <- IHd; f_equal; f_equal; rewrite ?Nat.tail_mul_spec; lia.
Qed.

Lemma parseDigits_showNat (n : nat) :
  parseDigits 10 (showNat n) None = Some (Z.of_nat n).
Proof.
  unfold showNat.
  rewrite <- (DecimalNat.Unsigned.of_to n) at 2.
  unfold NilZero.string_of_uint, Nat.of_uint.
  destruct (Nat.to_uint n) as [|d|d|d|d|d|d|d|d|d|d];
    [reflexivity| | | | | | | | | |];
    cbn [NilEmpty.string_of_uint Nat.of_uint_acc parseDigits];
    eval_digit; rewrite <- parseDigits_uint; reflexivity.
Qed.

Lemma showNat_inj (a b : nat) : showNat a = showNat b -> a = b.
Proof.
  intros H. apply Nat2Z.inj.
  pose proof (parseDigits_showNat a) as Ha. rewrite H in Ha.
  rewrite parseDigits_showNat in Ha. congruence.
Qed.

Lemma trimStart_digit (c : ascii) (s : string) :
  isDigit c = true -> trimStart (String c s) = String c s.
Proof.
  intros Hc.
  destruct c as [[] [] [] [] [] [] [] []]; try discriminate Hc;
    destruct s as [|c1 [|c2 s2]]; reflexivity.
Qed.

Lemma digits_no_hex_prefix (s : string) :
  digitsOnly s = true ->
  startsWith s "0x" = false /\ startsWith s "0X" = false.
Proof.
  intros H. unfold startsWith.
  destruct s as [|c s']; [cbn; auto|].
  cbn [String.prefix].
  destruct (ascii_dec "0" c) as [<-|_]; [|auto].
  destruct s' as [|c1 s'']; [auto|].
  cbn [digitsOnly] in H. apply andb_true_iff in H. destruct H as [_ H].
  apply andb_true_iff in H. destruct H as [H _].
  cbn [String.prefix].
  destruct (ascii_dec "x" c1) as [<-|_]; [discriminate H|].
  destruct (ascii_dec "X" c1) as [<-|_]; [discriminate H|].
  auto.
Qed.

(** On a string of decimal digits [parseInt] reads the digits in radix 10:
    no white space, sign or 0x prefix is found. *)
Lemma mathInt_digits (s : string) :
  s <> "" -> digitsOnly s = true ->
  mathInt (Some s) = parseDigits 10 s None.
Proof.
  intros Hne H. destruct s as [|c s']; [contradiction|].
  pose proof (digits_no_hex_prefix _ H) as [Hx HX].
  assert (Hc : isDigit c = true).
  { cbn [digitsOnly] in H. apply andb_true_iff in H. tauto. }
  pose proof (trimStart_digit c s' Hc) as Htrim.
  unfold mathInt.
  destruct c as [[] [] [] [] [] [] [] []]; try discriminate Hc;
    rewrite Htrim; cbv beta iota zeta; rewrite Hx, HX; cbv beta iota zeta;
    cbn [orb];
    (destruct (parseDigits 10 _ None) as [m|];
     [rewrite Z.mul_1_l|]; reflexivity).
Qed.

Lemma mathInt_showNat (n : nat) :
  mathInt (Some (showNat n)) = Some (Z.of_nat n).
Proof.
  destruct (showNat_digits n) as [Hd Hne].
  rewrite mathInt_digits by assumption.
  apply parseDigits_showNat.
Qed.

(** X12. A count written in decimal is read as the number it denotes, made
    a Number: the number itself below 2^53, the nearest double in general.
    --count followed by the decimal numeral of n sets the count to n brought
    into 1..4, unless --count occurs again later. *)
Theorem count_flag_decimal (n : nat) (pre rest : list string) (o : Options)
  (Hpre : aligned pre) (Hnot : ~ In "--count" rest) :
  parseInt (Some (showNat n)) = Some (roundToDouble (Z.of_nat n))
  /\ ((Z.of_nat n < 2 ^ 53)%Z ->
      parseInt (Some (showNat n)) = Some (Finite (Z.of_nat n)))
  /\ clampCount (Some (showNat n)) = Z.min 4 (Z.max 1 (Z.of_nat n))
  /\ count (parseLoop (pre ++ "--count" :: showNat n :: rest) o)
     = Z.min 4 (Z.max 1 (Z.of_nat n)).
Proof.
  assert (Hclamp : clampCount (Some (showNat n))
                   = Z.min 4 (Z.max 1 (Z.of_nat n))).
  { rewrite clampCount_mathInt, mathInt_showNat. reflexivity. }
  assert (Hread : parseInt (Some (showNat n))
                  = Some (roundToDouble (Z.of_nat n))).
  { unfold parseInt. rewrite mathInt_showNat. reflexivity. }
  split; [exact Hread|].
  split.
  { intros Hsmall. rewrite Hread, roundToDouble_small; [reflexivity|].
    rewrite Z.abs_eq by lia. exact Hsmall. }
  split; [exact Hclamp|].
  rewrite parseLoop_app by exact Hpre.
  cbn [parseLoop hd_error]. unfold parseStep at 1.
  cbn [String.eqb Ascii.eqb Bool.eqb].
  rewrite (parseLoop_keeps count "--count" parseStep_keeps_count _ _ Hnot).
  exact Hclamp.
Qed.

End DecimalCounts.

Lemma count_flag_decimal_witness :
  count (parseLoop ["a cat"; "--count"; "3"; "--name"; "hero"]
                   (defaultOptions sampleNode "/work")) = 3%Z.
Proof.
  refine (proj2 (proj2 (proj2
            (count_flag_decimal 3 ["a cat"] ["--name"; "hero"]
               (defaultOptions sampleNode "/work")
               (aligned_plain "a cat" [] eq_refl aligned_nil) _)))).
  cbn. intros [H|[H|[]]]; discriminate H.
Defined.

(** *** The names of the saved files *)

Section FileNames.
Context (node : Node).

Lemma append_cancel_l (s a b : string) : s ++ a = s ++ b -> a = b.
Proof.
  induction s as [|c s IH]; cbn; intros H; [exact H|].
  injection H as H. exact (IH H).
Qed.

(** Two strings that start with a numeral followed by a dot start with the
    same numeral. *)
Lemma digits_before_dot (s1 : string) :
  forall s2 r1 r2,
    digitsOnly s1 = true -> digitsOnly s2 = true ->
    s1 ++ "." ++ r1 = s2 ++ "." ++ r2 -> s1 = s2.
Proof.
  induction s1 as [|c1 s1 IH]; intros [|c2 s2] r1 r2 H1 H2 H; cbn in *.
  - reflexivity.
  - injection H as Hc _. subst c2. discriminate H2.
  - injection H as Hc _. subst c1. discriminate H1.
  - injection H as -> H.
    apply andb_true_iff in H1. apply andb_true_iff in H2.
    f_equal. exact (IH s2 r1 r2 (proj2 H1) (proj2 H2) H).
Qed.

Lemma fileName_inj (baseName : string) (total i j : nat) (e1 e2 : string) :
  1 < total ->
  fileName baseName total i e1 = fileName baseName total j e2 -> i = j.
Proof.
  intros Ht. unfold fileName.
  assert (Hlt : Nat.ltb 1 total = true) by (apply Nat.ltb_lt; exact Ht).
  rewrite Hlt. intros H.
  apply append_cancel_l in H. cbn [String.append] in H. injection H as H.
  destruct (showNat_digits (i + 1)) as [Hi _].
  destruct (showNat_digits (j + 1)) as [Hj _].
  pose proof (digits_before_dot _ _ _ _ Hi Hj H) as Heq.
  apply showNat_inj in Heq. lia.
Qed.

Lemma namesFrom_In o ts total rest :
  forall k name,
    In name (namesFrom o ts total k rest) ->
    exists j part, k <= j /\ name = nameOf o ts total j part.
Proof.
  induction rest as [|q rest IH]; intros k name Hn; [destruct Hn|].
  cbn [namesFrom] in Hn. destruct Hn as [<-|Hn].
  - exists k, q. auto.
  - destruct (IH (S k) name Hn) as [j [part [Hj Hname]]].
    exists j, part. split; [lia | exact Hname].
Qed.

(** The file names of one run are pairwise distinct. *)
Lemma namesFrom_NoDup o ts total rest :
  1 < total ->
  forall k, NoDup (namesFrom o ts total k rest).
Proof.
  intros Ht.
  induction rest as [|q rest IH]; intros k; cbn [namesFrom];
    constructor; [|apply IH].
  intros Hin. destruct (namesFrom_In _ _ _ _ _ _ Hin) as [j [part [Hj Heq]]].
  unfold nameOf in Heq. apply fileName_inj in Heq; lia.
Qed.

Lemma pathsFrom_names o dir ts total rest :
  forall k,
    pathsFrom node o dir ts total k rest
    = map (path_join node dir) (namesFrom o ts total k rest).
Proof.
  induction rest as [|q rest IH]; intros k; [reflexivity|].
  cbn [pathsFrom namesFrom map]. rewrite IH. reflexivity.
Qed.

Lemma NoDup_map_on {A B} (f : A -> B) (l : list A) :
  (forall a b, In a l -> In b l -> f a = f b -> a = b) ->
  NoDup l -> NoDup (map f l).
Proof.
  intros Hinj Hnd. induction Hnd as [|x l Hx Hnd IH]; cbn [map];
    constructor.
  - intros Hin. apply in_map_iff in Hin. destruct Hin as [y [Hy Hin]].
    assert (y = x)
      by (apply Hinj; [right; exact Hin | left; reflexivity | exact Hy]).
    subst y. exact (Hx Hin).
  - apply IH. intros a b Ha Hb. apply Hinj; right; assumption.
Qed.

(** X13. The files of one run have pairwise distinct names, which differ in
    their numbers; their paths are these names joined to the output
    directory.  So the paths are distinct, and no image of a run is
    overwritten by another image of the same run, as soon as joining two
    different names of the run to the output directory gives two different
    paths. *)
Theorem generateImages_paths_distinct (o : Options) (w w' : World)
  (paths : list string)
  (Hrun : generateImages node o w = (Return paths, w')) :
  exists result d,
    gemini w (List.length (sent w)) (requestOf o) = Resolve result
    /\ outputDir o = Some d
    /\ let dir := path_resolve node (cwd w) d in
       let names :=
         namesFrom o (clock w) (List.length (imagePartsOf result)) 0
                   (imagePartsOf result) in
       NoDup names
       /\ paths = map (path_join node dir) names
       /\ ((forall a b,
               In a names -> In b names ->
               path_join node dir a = path_join node dir b -> a = b) ->
           NoDup paths
           /\ NoDup (map fst (skipn (List.length (written w))
                                    (written w')))).
Proof.
  pose proof (generateImages_spec node o w) as Hs. cbv zeta in Hs.
  rewrite Hrun in Hs. cbn [fst snd] in Hs.
  destruct (negb (truthy (env_GEMINI_API_KEY w))); [discriminate Hs|].
  destruct Hs as [_ Hs].
  destruct (gemini w (List.length (sent w)) (requestOf o))
    as [result|e]; [|destruct Hs as [Hs _]; discriminate Hs].
  destruct (outputDir o) as [d|];
    [|destruct Hs as [Hs _]; discriminate Hs].
  exists result, d. split; [reflexivity|]. split; [reflexivity|].
  cbv zeta.
  destruct (if existsb (String.eqb (path_resolve node (cwd w) d))
                       (existing w)
            then None
            else fsMkdir w (existing w) (path_resolve node (cwd w) d));
    [destruct Hs as [Hs _]; discriminate Hs|].
  destruct (imagePartsOf result) as [|p ips];
    [destruct Hs as [Hs _]; discriminate Hs|].
  destruct Hs as [Hpaths [Hw _]].
  assert (Hnames : NoDup (namesFrom o (clock w) (List.length (p :: ips)) 0
                                    (p :: ips))).
  { destruct ips as [|p2 ips].
    - cbn. constructor; [intros [] | constructor].
    - apply namesFrom_NoDup. cbn. lia. }
  rewrite pathsFrom_names in Hpaths.
  split; [exact Hnames|]. split; [exact Hpaths|].
  intros Hjoin.
  assert (Hnd : NoDup paths).
  { rewrite Hpaths. apply NoDup_map_on; assumption. }
  split; [exact Hnd|].
  rewrite Hw, skipn_app, skipn_all, Nat.sub_diag. cbn [app skipn].
  rewrite filesFrom_paths, pathsFrom_names, <- Hpaths. exact Hnd.
Qed.

End FileNames.

Lemma sampleNode_join_inj (dir a b : string) :
  path_join sampleNode dir a = path_join sampleNode dir b -> a = b.
Proof.
  cbn. intros H. apply append_cancel_l in H. injection H as H. exact H.
Qed.

Lemma generateImages_paths_distinct_witness :
  NoDup ["/work/generated-images/beach-party-1700000000000-1.png";
         "/work/generated-images/beach-party-1700000000000-2.jpg"].
Proof.
  assert (H : generateImages sampleNode sampleOptions worldTwoImages
              = (Return
                   ["/work/generated-images/beach-party-1700000000000-1.png";
                    "/work/generated-images/beach-party-1700000000000-2.jpg"],
                 snd (generateImages sampleNode sampleOptions
                        worldTwoImages)))
    by (vm_compute; reflexivity).
  destruct (generateImages_paths_distinct sampleNode sampleOptions
              worldTwoImages _ _ H) as [result [d [_ [_ [_ [_ Hnd]]]]]].
  exact (proj1 (Hnd (fun a b _ _ => sampleNode_join_inj _ a b))).
Defined.


(** *** What is printed, and what is asked of the model *)

Section OutputFurther.
Context (node : Node).

(** [generateImages] prints on the output stream only. *)
Lemma generateImages_console (o : Options) (w : World) :
  exists lines,
    console (snd (generateImages node o w))
    = app (console w) (map (fun l => (Stdout, l)) lines).
Proof.
  unfold generateImages, bind, getenv_GEMINI_API_KEY, console_log,
    generateContent, throw, process_cwd, existsSync, when, mkdirSync,
    Date_now, ret.
  cbn -[saveLoop requestOf filter String.append forEach].
  destruct (negb (truthy (env_GEMINI_API_KEY w)));
    [exists []; cbn; rewrite app_nil_r; reflexivity|].
  cbn -[saveLoop requestOf filter String.append forEach].
  destruct (gemini w (List.length (sent w)) (requestOf o)) as [result|e];
    cbn -[saveLoop requestOf filter String.append forEach];
    [|rewrite <- !app_assoc; eexists [_; _; _; _]; reflexivity].
  destruct (outputDir o) as [d|];
    cbn -[saveLoop requestOf filter String.append forEach];
    [|rewrite <- !app_assoc; eexists [_; _; _; _]; reflexivity].
  assert (Himg : Forall (fun p => isImagePart p = true)
                        (filter isImagePart (responseParts result))).
  { apply Forall_forall. intros p Hp. apply filter_In in Hp. tauto. }
  destruct (existsb (String.eqb (path_resolve node (cwd w) d)) (existing w));
    cbn -[saveLoop requestOf filter String.append forEach];
    [|destruct (fsMkdir w (existing w) (path_resolve node (cwd w) d));
      cbn -[saveLoop requestOf filter String.append forEach];
      [rewrite <- !app_assoc; eexists [_; _; _; _]; reflexivity|]].
  all: destruct (filter isImagePart (responseParts result)) as [|p ips].
  all: try (destruct (filter hasText (responseParts result)) as [|tp tps];
            [ cbn -[String.append]; rewrite <- !app_assoc;
              first [ eexists [_; _; _; _]; reflexivity
                    | eexists [_; _; _; _; _]; reflexivity ]
            | cbn -[String.append forEach];
              rewrite (forEach_log (fun x => match text x with
                                             | Some t0 => t0
                                             | None => ""
                                             end));
              cbn -[String.append]; rewrite <- !app_assoc;
              first [ eexists (_ :: _ :: _ :: _ :: _ :: _ :: map _ tps);
                      cbn -[String.append]; rewrite map_map; reflexivity
                    | eexists (_ :: _ :: _ :: _ :: _ :: _ :: _ :: map _ tps);
                      cbn -[String.append]; rewrite map_map; reflexivity ] ]).
  all: cbn -[saveLoop String.append];
    match goal with
    | Hparts : Forall _ (?p0 :: ?l0)
      |- context [saveLoop node ?o0 ?dir ?ts ?n 0 (?p0 :: ?l0) [] ?w0] =>
        let lines := fresh "lines" in
        let Hl := fresh "Hl" in
        destruct (saveLoop_spec node o0 dir ts n (p0 :: l0) Hparts 0 [] w0)
          as [_ [[lines Hl] _]];
        rewrite Hl; cbn -[String.append]; rewrite <- !app_assoc;
        first [ eexists (_ :: _ :: _ :: _ :: _ :: lines); reflexivity
              | eexists (_ :: _ :: _ :: _ :: _ :: _ :: lines); reflexivity ]
    end.
Qed.

Lemma last_three {A} (l : list A) (a b c d : A) :
  last (l ++ [a; b; c]) d = c.
Proof.
  replace (l ++ [a; b; c])%list with ((l ++ [a; b]) ++ [c])%list
    by (rewrite <- app_assoc; reflexivity).
  apply last_last.
Qed.

(** X14. A run prints on the error stream exactly when it fails: when [main]
    returns, no line has been added to the error stream, and when it leaves
    with status 1 the last line printed is on the error stream. *)
Theorem main_error_stream (w : World) :
  let r := main node w in
  (fst r = Return tt ->
   forall line, In (Stderr, line) (console (snd r)) ->
                In (Stderr, line) (console w))
  /\ (fst r = Exit 1%Z ->
      exists line, last (console (snd r)) (Stdout, "") = (Stderr, line)).
Proof.
  intros r. subst r.
  pose proof (main_cases node w) as Hm.
  destruct (parseArgs_outcomes node w) as [[o Hp]|[line0 [Hp _]]];
    rewrite Hp in Hm.
  - destruct (generateImages_console o w) as [lines Hl].
    pose proof (generateImages_no_exit node o w) as Hne.
    destruct (generateImages node o w) as [[paths|e|c] w2];
      cbn [fst snd] in *; [| |exfalso; exact (Hne c eq_refl)];
      rewrite Hm; cbn [fst snd console withConsole]; split;
      try (intros E; discriminate E).
    + intros _ line Hin. rewrite Hl in Hin.
      apply in_app_or in Hin. destruct Hin as [Hin|[Hin|[]]];
        [|discriminate Hin].
      apply in_app_or in Hin. destruct Hin as [Hin|Hin]; [exact Hin|].
      apply in_map_iff in Hin. destruct Hin as [l [E _]]. discriminate E.
    + intros _. destruct (mentionsKey e).
      * eexists. rewrite last_three. reflexivity.
      * eexists. rewrite last_last. reflexivity.
  - rewrite Hm. cbn [fst snd console withConsole]. split.
    + intros E. discriminate E.
    + intros _. eexists. rewrite last_last. reflexivity.
Qed.

(** X15. The text that a run asks the model for is the prompt itself when the
    count is 1, and otherwise the prompt after a request for 2, 3 or 4
    different variations of it: no other number can be asked for. *)
Theorem parseArgs_api_prompt (w w' : World) (o : Options)
  (H : parseArgs node w = (Return o, w')) :
  contents (requestOf o) = CString (apiPromptOf o)
  /\ ((count o = 1%Z /\ apiPromptOf o = prompt o)
      \/ exists numeral,
          In numeral ["2"; "3"; "4"]
          /\ showZ (count o) = numeral
          /\ apiPromptOf o
             = "Generate " ++ numeral ++ " different variations of: "
               ++ prompt o).
Proof.
  split; [reflexivity|].
  apply parseArgs_returns in H. destruct H as [Ho _].
  assert (Hr : (1 <= count o <= 4)%Z).
  { subst o. apply parseLoop_count_range. cbn. lia. }
  assert (Hc : count o = 1%Z \/ count o = 2%Z \/ count o = 3%Z
               \/ count o = 4%Z) by lia.
  unfold apiPromptOf.
  destruct Hc as [Hc|[Hc|[Hc|Hc]]]; rewrite Hc.
  - left. auto.
  - right. exists "2". cbn. auto.
  - right. exists "3". cbn. auto.
  - right. exists "4". cbn. auto 6.
Qed.

(** X16. Every request [generateImages] sends is the one built from the
    options: the model name, the prompt text alone as contents (the prompt,
    or the request for variations of it when count is above 1) and the
    aspect ratio; it holds no image. *)
Theorem generateImages_request_text_only (o : Options) (w : World)
  (req : Request)
  (H : In req (sent (snd (generateImages node o w)))) :
  In req (sent w)
  \/ (req = requestOf o
      /\ model req = "gemini-3-pro-image-preview"
      /\ contents req = CString (apiPromptOf o)
      /\ apiPromptOf o
         = (if (1 <? count o)%Z
            then "Generate " ++ showZ (count o)
                 ++ " different variations of: " ++ prompt o
            else prompt o)
      /\ cfgAspectRatio (imageConfig (config req)) = aspectRatio o
      /\ requestBlobs req = []).
Proof.
  rewrite generateImages_sent in H.
  destruct (truthy (env_GEMINI_API_KEY w)).
  - apply in_app_or in H.
    destruct H as [H|[H|[]]]; [left; exact H|].
    right. subst req. repeat split; reflexivity.
  - left; exact H.
Qed.

End OutputFurther.

Lemma main_error_stream_witness :
  exists line,
    last (console (snd (main sampleNode worldRefused))) (Stdout, "")
    = (Stderr, line).
Proof.
  exact (proj2 (main_error_stream sampleNode worldRefused) eq_refl).
Defined.

Lemma parseArgs_api_prompt_witness :
  contents (requestOf (parseLoop ["a cat"; "--count"; "9"]
                                 (defaultOptions sampleNode "/work")))
  = CString "Generate 4 different variations of: a cat".
Proof.
  exact (proj1 (parseArgs_api_prompt sampleNode worldCountNine
                  worldCountNine _ eq_refl)).
Defined.

Lemma generateImages_request_text_only_witness :
  In (requestOf sampleOptions) (sent worldOnePng)
  \/ requestBlobs (requestOf sampleOptions) = [].
Proof.
  destruct (generateImages_request_text_only sampleNode sampleOptions
              worldOnePng (requestOf sampleOptions)
              (or_introl eq_refl)) as [H|H].
  - left. exact H.
  - right. exact (proj2 (proj2 (proj2 (proj2 (proj2 H))))).
Defined.

